(** * robotoff.ingredients: offset-preserving normalisation and
      correction reconciliation

    A shallow embedding of [src/robotoff/ingredients.py] together with the
    properties of its normaliser, segmenter, reconciler and text rebuilder.

    Python values are modelled as follows.
    - [str] is a list of Unicode code points ([N]); indices and offsets are
      Python integers ([Z]); slices follow Python's clamping rules.
    - The compiled pattern [BLACKLIST_RE] is a small regular-expression
      syntax tree run by a backtracking matcher with the strategy of
      CPython's [re] module (leftmost start, ordered alternation, greedy
      repetition).
    - Exceptions and the two logging calls are carried by a writer/error
      monad [M].
    - The Elasticsearch client is a record of the two calls the module makes
      ([msearch] and [indices.analyze]). *)

From Stdlib Require Import String Ascii.
From Stdlib Require Import List ZArith NArith Lia Bool Sorted.
From Stdlib Require Import Permutation.
Import ListNotations.
Open Scope Z_scope.

(** ** Python strings *)

Definition char := N.
Definition str := list char.

(** An ASCII literal as a Python string. *)
Definition py (s : string) : str :=
  map N_of_ascii (list_ascii_of_string s).

Definition chr_of (s : string) : char :=
  match s with
  | String a _ => N_of_ascii a
  | EmptyString => 0%N
  end.

Definition SPACE : char := 32%N.

Definition len {A} (t : list A) : Z := Z.of_nat (length t).

(** [c in t] for a character and a collection of characters. *)
Definition char_in (c : char) (t : list char) : bool := existsb (N.eqb c) t.

(** Index normalisation of a slice bound: negative bounds count from the
    end, and every bound is clamped to [0, len]. *)
Definition clamp (n i : Z) : Z :=
  if i <? 0 then Z.max (i + n) 0 else Z.min i n.

(** [t[lo:hi]] with step 1; [None] is an omitted bound. *)
Definition slice {A} (t : list A) (lo hi : option Z) : list A :=
  let n := len t in
  let a := match lo with None => 0 | Some i => clamp n i end in
  let b := match hi with None => n | Some j => clamp n j end in
  firstn (Z.to_nat (b - a)) (skipn (Z.to_nat a) t).

(** [c * n] for a one-character string [c]. *)
Definition str_mul (c : char) (n : Z) : str := repeat c (Z.to_nat n).

Fixpoint enumerate_from {A} (i : Z) (l : list A) : list (Z * A) :=
  match l with
  | [] => []
  | x :: l' => (i, x) :: enumerate_from (i + 1) l'
  end.

Definition enumerate {A} (l : list A) : list (Z * A) := enumerate_from 0 l.

(** ** Character classes of [re] on [str] patterns

    [\d] and [\s] of a [str] pattern are the Unicode decimal digits and the
    Unicode white space.  The two tables below are those of the Unicode
    database 14.0.0 (CPython 3.11); the proofs only use that U+0020 is not a
    decimal digit. *)

Definition DECIMAL_RANGES : list (N * N) :=
  [(48, 57); (1632, 1641); (1776, 1785); (1984, 1993); (2406, 2415);
   (2534, 2543); (2662, 2671); (2790, 2799); (2918, 2927); (3046, 3055);
   (3174, 3183); (3302, 3311); (3430, 3439); (3558, 3567); (3664, 3673);
   (3792, 3801); (3872, 3881); (4160, 4169); (4240, 4249); (6112, 6121);
   (6160, 6169); (6470, 6479); (6608, 6617); (6784, 6793); (6800, 6809);
   (6992, 7001); (7088, 7097); (7232, 7241); (7248, 7257); (42528, 42537);
   (43216, 43225); (43264, 43273); (43472, 43481); (43504, 43513);
   (43600, 43609); (44016, 44025); (65296, 65305); (66720, 66729);
   (68912, 68921); (69734, 69743); (69872, 69881); (69942, 69951);
   (70096, 70105); (70384, 70393); (70736, 70745); (70864, 70873);
   (71248, 71257); (71360, 71369); (71472, 71481); (71904, 71913);
   (72016, 72025); (72784, 72793); (73040, 73049); (73120, 73129);
   (92768, 92777); (92864, 92873); (93008, 93017); (120782, 120831);
   (123200, 123209); (123632, 123641); (125264, 125273);
   (130032, 130041)]%N.

Definition WHITESPACE : list N :=
  [9; 10; 11; 12; 13; 28; 29; 30; 31; 32; 133; 160; 5760; 8192; 8193; 8194;
   8195; 8196; 8197; 8198; 8199; 8200; 8201; 8202; 8232; 8233; 8239; 8287;
   12288]%N.

Definition in_range (c : char) (r : N * N) : bool :=
  (fst r <=? c)%N && (c <=? snd r)%N.

(** [\d] *)
Definition is_digit (c : char) : bool := existsb (in_range c) DECIMAL_RANGES.

(** [\s] *)
Definition is_space (c : char) : bool := char_in c WHITESPACE.

(** [[a-z]] *)
Definition is_az (c : char) : bool := in_range c (97, 122)%N.

(** [[,.]] *)
Definition is_comma_dot (c : char) : bool := char_in c (py ",.").

(** [[_•:0-9]]; the bullet is U+2022. *)
Definition is_stray (c : char) : bool :=
  char_in c [chr_of "_"; 8226%N; chr_of ":"] || in_range c (48, 57)%N.

(** ** A backtracking matcher for the fragment of [re] used by the module *)

Inductive regex : Type :=
| Chr (c : char)                                     (* a literal *)
| Cls (p : char -> bool)                             (* a class or set *)
| Rep (p : char -> bool) (lo : nat) (hi : option nat)(* greedy p{lo,hi} *)
| Cat (r1 r2 : regex)                                (* r1 r2 *)
| Alt (r1 r2 : regex)                                (* r1 | r2 *)
| Opt (r : regex).                                   (* greedy (?:r)? *)

Definition may_take (hi : option nat) : bool :=
  match hi with
  | Some O => false
  | _ => true
  end.

(** Greedy repetition of a one-character class: take as many characters as
    allowed, and give them back one at a time while the continuation [k]
    fails, never going below [lo]. *)
Fixpoint rep (p : char -> bool) (lo : nat) (hi : option nat)
         (s : str) (k : str -> option str) {struct s} : option str :=
  let stop := match lo with O => k s | S _ => None end in
  match s with
  | c :: s' =>
      if p c && may_take hi then
        match rep p (pred lo) (option_map pred hi) s' k with
        | Some rest => Some rest
        | None => stop
        end
      else stop
  | [] => stop
  end.

(** [run r s k] matches [r] at the head of [s] and hands the unread suffix
    to the continuation; the first success in backtracking order wins. *)
Fixpoint run (r : regex) (s : str) (k : str -> option str) : option str :=
  match r with
  | Chr c =>
      match s with
      | c' :: s' => if (c' =? c)%N then k s' else None
      | [] => None
      end
  | Cls p =>
      match s with
      | c' :: s' => if p c' then k s' else None
      | [] => None
      end
  | Rep p lo hi => rep p lo hi s k
  | Cat r1 r2 => run r1 s (fun s' => run r2 s' k)
  | Alt r1 r2 =>
      match run r1 s k with
      | Some rest => Some rest
      | None => run r2 s k
      end
  | Opt r1 =>
      match run r1 s k with
      | Some rest => Some rest
      | None => k s
      end
  end.

(** Length of the match of [r] anchored at the head of [s]. *)
Definition match_at (r : regex) (s : str) : option Z :=
  match run r s Some with
  | Some rest => Some (len s - len rest)
  | None => None
  end.

(** Leftmost match: [(match.start(), match.end())]. *)
Fixpoint search_from (r : regex) (pos : Z) (s : str) : option (Z * Z) :=
  match match_at r s with
  | Some n => Some (pos, pos + n)
  | None =>
      match s with
      | [] => None
      | _ :: s' => search_from r (pos + 1) s'
      end
  end.

(** [next(r.finditer(s))]; [None] stands for [StopIteration]. *)
Definition first_match (r : regex) (s : str) : option (Z * Z) :=
  search_from r 0 s.

(** ** Module constants *)

Definition SPLITTER_CHAR : list char := py "(),;[]-{}".

(** The three alternatives of the pattern, in order: a percentage
    [\d+(?:[,.]\d+)?\s*%], an additive code [E ?\d{3,5}[a-z]*] and a lone
    character of [[_•:0-9]]. *)
Definition RE_PERCENT : regex :=
  Cat (Rep is_digit 1 None)
      (Cat (Opt (Cat (Cls is_comma_dot) (Rep is_digit 1 None)))
           (Cat (Rep is_space 0 None) (Chr (chr_of "%")))).

Definition RE_ADDITIVE : regex :=
  Cat (Chr (chr_of "E"))
      (Cat (Opt (Chr SPACE))
           (Cat (Rep is_digit 3 (Some 5%nat)) (Rep is_az 0 None))).

Definition RE_STRAY : regex := Cls is_stray.

Definition BLACKLIST_RE : regex := Alt RE_PERCENT (Alt RE_ADDITIVE RE_STRAY).

Definition OffsetType : Type := Z * Z.

Record Ingredients := mkIngredients {
  text : str;
  normalized : str;
  offsets : list OffsetType
}.

(** ** normalize_ingredients *)

(** The body of the loop for one match:
    [normalized[:start] + ' ' * (end - start) + normalized[end:]]. *)
Definition blank_span (normalized : str) (m : Z * Z) : str :=
  let '(start, end_) := m in
  slice normalized None (Some start)
    ++ str_mul SPACE (end_ - start)
    ++ slice normalized (Some end_) None.

(** The [while True] loop, bounded by [fuel] iterations; [None] means that
    the loop was still running when the fuel ran out.  A match object is
    always truthy, so the [else: break] branch is never taken. *)
Fixpoint normalize_loop (fuel : nat) (normalized : str) : option str :=
  match fuel with
  | O => None
  | S fuel' =>
      match first_match BLACKLIST_RE normalized with
      | None => Some normalized
      | Some m => normalize_loop fuel' (blank_span normalized m)
      end
  end.

(** The loop needs at most one iteration per character (see
    [normalize_loop_enough]), so this budget always reaches the [break]. *)
Definition normalize_ingredients (ingredient_text : str) : str :=
  match normalize_loop (S (length ingredient_text)) ingredient_text with
  | Some normalized => normalized
  | None => ingredient_text
  end.

(** ** process_ingredients *)

Record segment_state := mkSeg {
  seg_offsets : list OffsetType;
  seg_chars : list char;
  seg_start_idx : Z
}.

Definition segment_step (st : segment_state) (ic : Z * char) : segment_state :=
  let '(idx, c) := ic in
  if char_in c SPLITTER_CHAR then
    mkSeg (seg_offsets st ++ [(seg_start_idx st, idx)])
          (seg_chars st ++ [SPACE])
          (idx + 1)
  else
    mkSeg (seg_offsets st) (seg_chars st ++ [c]) (seg_start_idx st).

Definition process_ingredients (ingredient_text : str) : Ingredients :=
  let normalized := normalize_ingredients ingredient_text in
  let st := fold_left segment_step (enumerate normalized) (mkSeg [] [] 0) in
  let offsets :=
    if seg_start_idx st =? len normalized then seg_offsets st
    else seg_offsets st ++ [(seg_start_idx st, len normalized)] in
  mkIngredients ingredient_text (seg_chars st) offsets.

Definition iter_normalized_ingredients (self : Ingredients) : list str :=
  map (fun '(start, end_) => slice (normalized self) (Some start) (Some end_))
      (offsets self).

(** ** Data classes *)

Record TermCorrection := mkTermCorrection {
  original : str;
  correction : str;
  start_offset : Z;
  end_offset : Z
}.

Record Correction := mkCorrection {
  term_corrections : list TermCorrection;
  score : Z
}.

(** A token of the analyzer: [{'token': ..., 'start_offset': ...,
    'end_offset': ...}]. *)
Record Token := mkToken {
  token : str;
  token_start : Z;
  token_end : Z
}.

(** ** Exceptions and logging *)

Inductive exn : Type :=
| KeyError (key : string)
| IndexError
| TokenLengthMismatchException.

Inductive event : Type :=
| Printed (error_reason error_type : str)
| Warned (original_tokens suggestion_tokens : list Token).

(** A computation returns the events it logged, in order, and either the
    exception it raised or its value. *)
Definition M (A : Type) : Type := list event * (exn + A).

Definition ret {A} (x : A) : M A := ([], inr x).

Definition raise {A} (e : exn) : M A := ([], inl e).

Definition emit (ev : event) : M unit := ([ev], inr tt).

Definition bind {A B} (m : M A) (f : A -> M B) : M B :=
  match m with
  | (evs, inl e) => (evs, inl e)
  | (evs, inr x) => let '(evs', r) := f x in (evs ++ evs', r)
  end.

Notation "x <- m ;; k" := (bind m (fun x => k))
  (at level 61, m at next level, right associativity).

Notation "m ;;; k" := (bind m (fun _ => k))
  (at level 61, right associativity).

(** A [for] loop over [xs] threading the loop variables [st]. *)
Fixpoint for_each {S A} (xs : list A) (st : S) (body : S -> A -> M S) : M S :=
  match xs with
  | [] => ret st
  | x :: xs' => st' <- body st x ;; for_each xs' st' body
  end.

(** [l[i]] *)
Definition getitem {A} (l : list A) (i : Z) : M A :=
  let j := if i <? 0 then i + len l else i in
  if j <? 0 then raise IndexError
  else match nth_error l (Z.to_nat j) with
       | Some x => ret x
       | None => raise IndexError
       end.

(** ** The case methods of [str]

    [str.lower], [str.upper], [str.capitalize], [str.isupper] and
    [str.istitle] depend on the Unicode case tables; the module is
    parametrised by them. *)

Class StrMethods := {
  lower : str -> str;
  upper : str -> str;
  capitalize : str -> str;
  isupper : str -> bool;
  istitle : str -> bool
}.

Fixpoint str_eqb (a b : str) : bool :=
  match a, b with
  | [], [] => true
  | x :: a', y :: b' => (x =? y)%N && str_eqb a' b'
  | _, _ => false
  end.

(** ** format_corrections *)

Section Reconciler.
Context `{StrMethods}.

Definition format_step (offset : Z) (corrections : list TermCorrection)
           (pair : Token * Token) : list TermCorrection :=
  let '(original_token, suggestion_token) := pair in
  let original_token_str := token original_token in
  let suggestion_token_str := token suggestion_token in
  if negb (str_eqb (lower original_token_str) suggestion_token_str) then
    let token_str :=
      if isupper original_token_str then upper suggestion_token_str
      else if istitle original_token_str then capitalize suggestion_token_str
      else suggestion_token_str in
    corrections ++
      [mkTermCorrection original_token_str token_str
                        (offset + token_start original_token)
                        (offset + token_end original_token)]
  else corrections.

Definition format_corrections (original_tokens suggestion_tokens : list Token)
           (offset : Z) : exn + list TermCorrection :=
  if negb (length original_tokens =? length suggestion_tokens)%nat then
    inl TokenLengthMismatchException
  else
    inr (fold_left (format_step offset)
                   (combine original_tokens suggestion_tokens) []).

End Reconciler.

(** ** generate_corrected_text *)

(** [sorted(corrections, key=attrgetter('start_offset'))]: the sort is
    stable, so an element goes in front of the first one whose key is not
    smaller. *)
Fixpoint insert_by_start (c : TermCorrection) (l : list TermCorrection)
  : list TermCorrection :=
  match l with
  | [] => [c]
  | d :: l' =>
      if start_offset c <=? start_offset d then c :: d :: l'
      else d :: insert_by_start c l'
  end.

Definition sorted_by_start (corrections : list TermCorrection)
  : list TermCorrection :=
  fold_right insert_by_start [] corrections.

Definition rebuild_step (text : str)
           (st : list str * option TermCorrection) (c : TermCorrection)
  : list str * option TermCorrection :=
  let '(corrected_fragments, last_correction) := st in
  let fragment :=
    match last_correction with
    | None => slice text None (Some (start_offset c))
    | Some l => slice text (Some (end_offset l)) (Some (start_offset c))
    end in
  (corrected_fragments ++ [fragment] ++ [correction c], Some c).

Definition generate_corrected_text (corrections : list TermCorrection)
           (text : str) : str :=
  let sorted_corrections := sorted_by_start corrections in
  let '(corrected_fragments, last_correction) :=
    fold_left (rebuild_step text) sorted_corrections ([], None) in
  let corrected_fragments :=
    match last_correction with
    | Some l => corrected_fragments ++ [slice text (Some (end_offset l)) None]
    | None => corrected_fragments
    end in
  concat corrected_fragments.

(** ** The Elasticsearch client *)

Record SuggestQuery := mkSuggestQuery {
  q_text : str;
  q_confidence : Z;
  q_size : Z;
  q_min_word_length : Z;
  q_suggest_mode : string
}.

(** The keyword arguments forwarded to [generate_suggest_query]. *)
Record Kwargs := mkKwargs {
  confidence : Z;
  size : Z;
  min_word_length : Z;
  suggest_mode : string
}.

Definition default_kwargs : Kwargs := mkKwargs 1 1 4 "popular".

Definition generate_suggest_query (text : str) (kw : Kwargs) : SuggestQuery :=
  mkSuggestQuery text (confidence kw) (size kw) (min_word_length kw)
                 (suggest_mode kw).

(** One entry of [options]: [{'text': ..., 'score': ...}]. *)
Record SuggestOption := mkSuggestOption {
  option_text : str;
  option_score : Z
}.

(** One entry of [r['suggest']['autocorrect']]. *)
Record Suggestion := mkSuggestion {
  options : list SuggestOption
}.

Record RootCause := mkRootCause {
  cause_type : str;
  cause_reason : str
}.

(** One entry of [response['responses']]. *)
Record ResponseItem := mkResponseItem {
  status : Z;
  suggest : list Suggestion
}.

(** The answer of [msearch]; [error] is the optional top-level key
    [response['error']], holding its [root_cause] list. *)
Record MSearchResponse := mkMSearchResponse {
  responses : list ResponseItem;
  error : option (list RootCause)
}.

(** [msearch] receives the queries of the body (the index and document type
    are settings); [analyze] is [indices.analyze] with the standard
    tokenizer, returning [r['tokens']]. *)
Record Client := mkClient {
  msearch : list SuggestQuery -> MSearchResponse;
  analyze : str -> list Token
}.

(** ** _suggest_batch *)

Definition suggest_step (response : MSearchResponse)
           (suggestions : list Suggestion) (r : ResponseItem)
  : M (list Suggestion) :=
  if negb (status r =? 200) then
    causes <- match error response with
              | Some causes => ret causes
              | None => raise (KeyError "error")
              end ;;
    root_cause <- getitem causes 0 ;;
    emit (Printed (cause_reason root_cause) (cause_type root_cause)) ;;;
    ret suggestions
  else
    s <- getitem (suggest r) 0 ;;
    ret (suggestions ++ [s]).

Definition _suggest_batch (client : Client) (texts : list str) (kw : Kwargs)
  : M (list Suggestion) :=
  let queries := map (fun text => generate_suggest_query text kw) texts in
  let response := msearch client queries in
  for_each (responses response) [] (suggest_step response).

(** ** generate_corrections *)

Section Pipeline.
Context `{StrMethods}.

Definition get_normalized_ingredient (self : Ingredients) (index : Z) : M str :=
  o <- getitem (offsets self) index ;;
  ret (slice (normalized self) (Some (fst o)) (Some (snd o))).

Definition correction_step (client : Client) (ingredients : Ingredients)
           (corrections : list Correction) (item : Z * Suggestion)
  : M (list Correction) :=
  let '(idx, suggestions) := item in
  offsets <- getitem (offsets ingredients) idx ;;
  normalized_ingredient <- get_normalized_ingredient ingredients idx ;;
  match options suggestions with
  | [] => ret corrections
  | top :: _ =>
      let original_tokens := analyze client normalized_ingredient in
      let suggestion_tokens := analyze client (option_text top) in
      match format_corrections original_tokens suggestion_tokens
                               (fst offsets) with
      | inr term_corrections =>
          ret (corrections ++
                 [mkCorrection term_corrections (option_score top)])
      | inl TokenLengthMismatchException =>
          emit (Warned original_tokens suggestion_tokens) ;;;
          ret corrections
      | inl e => raise e
      end
  end.

Definition generate_corrections (client : Client) (ingredients_text : str)
           (kw : Kwargs) : M (list Correction) :=
  let ingredients := process_ingredients ingredients_text in
  let normalized_ingredients := iter_normalized_ingredients ingredients in
  suggestions <- _suggest_batch client normalized_ingredients kw ;;
  for_each (enumerate suggestions) []
           (correction_step client ingredients).

End Pipeline.

(** ** generate_insights, for one product *)

Record Insight := mkInsight {
  insight_corrections : list TermCorrection;
  insight_text : str;
  insight_corrected : str
}.

Section Insights.
Context `{StrMethods}.

(** The body of the loop of [generate_insights] for a product whose
    [ingredients_text_fr] is [text]; [None] is the [continue]. *)
Definition product_insight (client : Client) (text : str) (kw : Kwargs)
  : M (option Insight) :=
  corrections <- generate_corrections client text kw ;;
  match corrections with
  | [] => ret None
  | _ =>
      let term_corrections := concat (map term_corrections corrections) in
      ret (Some (mkInsight term_corrections text
                           (generate_corrected_text term_corrections text)))
  end.

End Insights.

(** ** Measures used by the proofs *)

(** The characters at which a match of [BLACKLIST_RE] can begin. *)
Definition can_start (c : char) : bool :=
  is_digit c || (c =? chr_of "E")%N || is_stray c.

Definition triggers (s : str) : nat := List.length (filter can_start s).

(** [r.fullmatch(s)] *)
Definition fullmatch (r : regex) (s : str) : bool :=
  match run r s (fun rest => match rest with [] => Some [] | _ => None end) with
  | Some _ => true
  | None => false
  end.

Fixpoint inits {A} (l : list A) : list (list A) :=
  match l with
  | [] => []
  | x :: l' => [x] :: map (cons x) (inits l')
  end.

(** The non-empty substrings of [s], one per pair of bounds [i < j]. *)
Fixpoint substrings {A} (s : list A) : list (list A) :=
  match s with
  | [] => []
  | _ :: s' => inits s ++ substrings s'
  end.

(** The number of substrings of [s] that [BLACKLIST_RE] matches. *)
Definition matchable_substrings (s : str) : nat :=
  List.length (filter (fullmatch BLACKLIST_RE) (substrings s)).

(** Slots laid end to end from [lo], one separator between neighbours,
    the next free start being [hi]. *)
Inductive chain : Z -> list OffsetType -> Z -> Prop :=
| chain_nil lo : chain lo [] lo
| chain_cons lo e rest hi :
    lo <= e -> chain (e + 1) rest hi -> chain lo ((lo, e) :: rest) hi.

(** The loop invariant of the segmenter after the characters before index
    [k]. *)
Definition segment_inv (k : Z) (st : segment_state) : Prop :=
  chain 0 (seg_offsets st) (seg_start_idx st) /\
  seg_start_idx st <= k /\
  len (seg_chars st) = k.

Definition suffix_of (a b : str) : Prop := exists pre, b = pre ++ a.

(** A computation that does not end in [TokenLengthMismatchException]. *)
Definition mismatch_free {A} (m : M A) : Prop :=
  snd m <> inl TokenLengthMismatchException.

(** ** The reconciler, index by index *)

Definition no_token : Token := mkToken [] 0 0.

Section ReconcilerSpec.
Context `{StrMethods}.

(** The tokens at index [i] diverge. *)
Definition diverges_at (original_tokens suggestion_tokens : list Token)
           (i : nat) : bool :=
  negb (str_eqb (lower (token (nth i original_tokens no_token)))
                (token (nth i suggestion_tokens no_token))).

(** The replacement in the casing style of the original token. *)
Definition restyle (original_str suggestion_str : str) : str :=
  if isupper original_str then upper suggestion_str
  else if istitle original_str then capitalize suggestion_str
  else suggestion_str.

(** The correction expected at index [i] of a slot starting at [offset]. *)
Definition correction_at (original_tokens suggestion_tokens : list Token)
           (offset : Z) (i : nat) : TermCorrection :=
  let o := nth i original_tokens no_token in
  let s := nth i suggestion_tokens no_token in
  mkTermCorrection (token o) (restyle (token o) (token s))
                   (offset + token_start o) (offset + token_end o).

End ReconcilerSpec.

(** ** An ASCII instance of the case methods and a toy client

    Used by the examples only.  On ASCII strings the methods agree with
    CPython; other code points are treated as uncased. *)

Definition ascii_is_upper (c : char) : bool := in_range c (65, 90)%N.
Definition ascii_is_lower (c : char) : bool := in_range c (97, 122)%N.
Definition ascii_to_lower (c : char) : char :=
  if ascii_is_upper c then (c + 32)%N else c.
Definition ascii_to_upper (c : char) : char :=
  if ascii_is_lower c then (c - 32)%N else c.

Definition ascii_capitalize (s : str) : str :=
  match s with
  | [] => []
  | c :: s' => ascii_to_upper c :: map ascii_to_lower s'
  end.

Definition ascii_isupper (s : str) : bool :=
  forallb (fun c => negb (ascii_is_lower c)) s && existsb ascii_is_upper s.

(** The scan of [str.istitle]: upper-case letters may only follow uncased
    characters, lower-case letters only cased ones. *)
Fixpoint ascii_istitle_from (previous_is_cased cased : bool) (s : str) : bool :=
  match s with
  | [] => cased
  | c :: s' =>
      if ascii_is_upper c then
        if previous_is_cased then false else ascii_istitle_from true true s'
      else if ascii_is_lower c then
        if previous_is_cased then ascii_istitle_from true true s' else false
      else ascii_istitle_from false cased s'
  end.

#[local] Instance ascii_methods : StrMethods := {|
  lower := map ascii_to_lower;
  upper := map ascii_to_upper;
  capitalize := ascii_capitalize;
  isupper := ascii_isupper;
  istitle := ascii_istitle_from false false
|}.

Definition is_word_char (c : char) : bool :=
  ascii_is_upper c || ascii_is_lower c || in_range c (48, 57)%N.

(** Maximal runs of ASCII letters and digits, with their offsets. *)
Fixpoint words_from (pos start : Z) (cur : str) (s : str) : list Token :=
  let flush := match cur with [] => [] | _ => [mkToken cur start pos] end in
  match s with
  | [] => flush
  | c :: s' =>
      if is_word_char c then
        words_from (pos + 1) (match cur with [] => pos | _ => start end)
                   (cur ++ [c]) s'
      else flush ++ words_from (pos + 1) (pos + 1) [] s'
  end.

Definition words (s : str) : list Token := words_from 0 0 [] s.

Fixpoint lookup (key : str) (table : list (str * str)) : option str :=
  match table with
  | [] => None
  | (k, v) :: table' => if str_eqb k key then Some v else lookup key table'
  end.

(** A backend that knows a table of respellings (each with score 1),
    answers status 500 for the texts in [failing] and, when [with_error] is
    set, carries a top-level [error] key. *)
Definition toy_item (table : list (str * str)) (failing : list str)
           (q : SuggestQuery) : ResponseItem :=
  if existsb (str_eqb (q_text q)) failing then mkResponseItem 500 []
  else
    match lookup (q_text q) table with
    | Some v => mkResponseItem 200 [mkSuggestion [mkSuggestOption v 1]]
    | None => mkResponseItem 200 [mkSuggestion []]
    end.

Definition toy_client (table : list (str * str)) (failing : list str)
           (with_error : bool) : Client :=
  mkClient
    (fun queries =>
       mkMSearchResponse
         (map (toy_item table failing) queries)
         (if with_error
          then Some [mkRootCause (py "parsing_exception") (py "bad query")]
          else None))
    words.

Definition respellings : list (str * str) :=
  [(py "farinne", py "farine"); (py "sucrre", py "sucre");
   (py "sell", py "sel"); (py "beure", py "beurre");
   (py "oeuffs", py "oeufs")].

Definition five_slots : str := py "farinne,sucrre,sell,beure,oeuffs".

(** The tokens of the two sides agree up to the case of the original. *)
Definition tokens_agree `{StrMethods} (original_tokens suggestion_tokens : list Token)
  : Prop :=
  Forall2 (fun o s => lower (token o) = token s)
          original_tokens suggestion_tokens.

(** ** The other methods of [Ingredients] *)

Definition get_ingredient (self : Ingredients) (index : Z) : M str :=
  o <- getitem (offsets self) index ;;
  ret (slice (text self) (Some (fst o)) (Some (snd o))).

Definition ingredient_count (self : Ingredients) : Z := len (offsets self).

(** ** Vocabulary of the further properties *)

(** A character of the processed text is the original one or a blank. *)
Definition same_or_blank (a b : char) : Prop := b = a \/ b = SPACE.

Definition is_splitter (c : char) : bool := char_in c SPLITTER_CHAR.

(** The last character of [s] is a separator. *)
Definition ends_with_splitter (s : str) : bool :=
  match rev s with
  | [] => false
  | c :: _ => is_splitter c
  end.

(** [sep.join(parts)] *)
Fixpoint join (sep : str) (parts : list str) : str :=
  match parts with
  | [] => []
  | [p] => p
  | p :: parts' => p ++ sep ++ join sep parts'
  end.

(** The response succeeded: [r['status'] == 200]. *)
Definition succeeded (r : ResponseItem) : bool := status r =? 200.

(** A response that [_suggest_batch] reads without raising. *)
Definition usable (r : ResponseItem) : Prop :=
  status r = 200 /\ suggest r <> [].

(** Corrections in text order, each span inside [lo, hi] and starting at
    or after the end of the one before. *)
Fixpoint placed (lo : Z) (cs : list TermCorrection) (hi : Z) : Prop :=
  match cs with
  | [] => lo <= hi
  | c :: cs' =>
      lo <= start_offset c /\ start_offset c <= end_offset c /\
      placed (end_offset c) cs' hi
  end.

(** The text after offset [prev] with the corrections [cs] spliced in, as
    the rebuild loop lays it out. *)
Fixpoint spliced_from (t : str) (prev : Z) (cs : list TermCorrection) : str :=
  match cs with
  | [] => slice t (Some prev) None
  | c :: cs' =>
      slice t (Some prev) (Some (start_offset c))
        ++ correction c ++ spliced_from t (end_offset c) cs'
  end.

(** The change of length brought by the corrections. *)
Fixpoint growth (cs : list TermCorrection) : Z :=
  match cs with
  | [] => 0
  | c :: cs' =>
      len (correction c) - (end_offset c - start_offset c) + growth cs'
  end.

(** The analyzer reports token offsets inside the string it was given. *)
Definition analyzer_in_bounds (client : Client) : Prop :=
  forall s,
    Forall (fun tk => 0 <= token_start tk /\ token_start tk <= token_end tk /\
                      token_end tk <= len s)
           (analyze client s).

(** The term correction lies inside the slot. *)
Definition inside (slot : OffsetType) (tc : TermCorrection) : Prop :=
  fst slot <= start_offset tc /\ start_offset tc <= end_offset tc /\
  end_offset tc <= snd slot.

(** A tokenizer that returns its whole input as one token. *)
Definition one_token (s : str) : list Token := [mkToken s 0 (len s)].

Definition shift (offset : Z) (tc : TermCorrection) : TermCorrection :=
  mkTermCorrection (original tc) (correction tc)
                   (offset + start_offset tc) (offset + end_offset tc).

(** A response of status 200 whose first suggestion entry has no option. *)
Definition without_option (r : ResponseItem) : Prop :=
  status r = 200 /\
  exists s l, suggest r = s :: l /\ options s = [].

(** ** What one slot brings to [generate_corrections]

    The slot [slot] is paired with the entry [suggestions] that the loop
    reads at the slot's index. *)

Section SlotOutcome.
Context `{StrMethods}.

(** The warning logged for the pair: one when the slot has an option and
    the two token lists differ in length, none otherwise. *)
Definition slot_warning (client : Client) (ingredients : Ingredients)
           (pair : OffsetType * Suggestion) : list event :=
  let '(slot, suggestions) := pair in
  match options suggestions with
  | [] => []
  | top :: _ =>
      let original_tokens :=
        analyze client
          (slice (normalized ingredients) (Some (fst slot)) (Some (snd slot))) in
      let suggestion_tokens := analyze client (option_text top) in
      if (List.length original_tokens =? List.length suggestion_tokens)%nat
      then []
      else [Warned original_tokens suggestion_tokens]
  end.

(** The corrections appended for the pair: the one built from the result of
    [format_corrections] when the slot has an option and no mismatch is
    raised, none otherwise. *)
Definition slot_corrections (client : Client) (ingredients : Ingredients)
           (pair : OffsetType * Suggestion) : list Correction :=
  let '(slot, suggestions) := pair in
  match options suggestions with
  | [] => []
  | top :: _ =>
      let original_tokens :=
        analyze client
          (slice (normalized ingredients) (Some (fst slot)) (Some (snd slot))) in
      let suggestion_tokens := analyze client (option_text top) in
      match format_corrections original_tokens suggestion_tokens (fst slot) with
      | inr term_corrections =>
          [mkCorrection term_corrections (option_score top)]
      | inl _ => []
      end
  end.

End SlotOutcome.

(** * Properties *)

(** ** Lengths and slices *)

Lemma len_nonneg {A} (l : list A) : 0 <= len l.
Proof. unfold len. lia. Qed.

Lemma len_app {A} (a b : list A) : len (a ++ b) = len a + len b.
Proof. unfold len. rewrite length_app. lia. Qed.

Lemma len_cons {A} (x : A) (l : list A) : len (x :: l) = 1 + len l.
Proof. unfold len. simpl length. lia. Qed.

Lemma slice_to {A} (t : list A) (a : Z) :
  0 <= a -> slice t None (Some a) = firstn (Z.to_nat a) t.
Proof.
  intros Ha. unfold slice, clamp.
  destruct (a <? 0) eqn:E; [apply Z.ltb_lt in E; lia|].
  simpl skipn. rewrite Z.sub_0_r.
  destruct (Z.le_gt_cases a (len t)) as [L|G].
  - now rewrite Z.min_l.
  - rewrite Z.min_r by lia. unfold len in *.
    rewrite Nat2Z.id, !firstn_all2; trivial; lia.
Qed.

Lemma slice_from {A} (t : list A) (a : Z) :
  0 <= a -> slice t (Some a) None = skipn (Z.to_nat a) t.
Proof.
  intros Ha. unfold slice, clamp.
  destruct (a <? 0) eqn:E; [apply Z.ltb_lt in E; lia|].
  destruct (Z.le_gt_cases a (len t)) as [L|G].
  - rewrite Z.min_l by trivial. apply firstn_all2.
    rewrite length_skipn. unfold len in *. lia.
  - rewrite Z.min_r by lia. rewrite Z.sub_diag. simpl firstn.
    unfold len in *. symmetry. apply skipn_all2. lia.
Qed.

Lemma slice_prefix {A} (pre rest : list A) :
  slice (pre ++ rest) None (Some (len pre)) = pre.
Proof.
  rewrite slice_to by apply len_nonneg. unfold len. rewrite Nat2Z.id.
  rewrite firstn_app, Nat.sub_diag, firstn_all. simpl. apply app_nil_r.
Qed.

Lemma slice_suffix {A} (pre rest : list A) :
  slice (pre ++ rest) (Some (len pre)) None = rest.
Proof.
  rewrite slice_from by apply len_nonneg. unfold len. rewrite Nat2Z.id.
  rewrite skipn_app, Nat.sub_diag, skipn_all. reflexivity.
Qed.

(** ** The matcher only reads forward *)

Lemma suffix_refl s : suffix_of s s.
Proof. now exists []. Qed.

Lemma suffix_cons c a b : suffix_of a b -> suffix_of a (c :: b).
Proof. intros [pre ->]. now exists (c :: pre). Qed.

Lemma suffix_trans a b c : suffix_of a b -> suffix_of b c -> suffix_of a c.
Proof. intros [p ->] [q ->]. exists (q ++ p). now rewrite app_assoc. Qed.

Lemma suffix_len a b : suffix_of a b -> len a <= len b.
Proof. intros [pre ->]. rewrite len_app. pose proof (len_nonneg pre). lia. Qed.

Lemma rep_reads_forward p s : forall lo hi k x,
  rep p lo hi s k = Some x ->
  exists s', suffix_of s' s /\ k s' = Some x.
Proof.
  induction s as [|c s IH]; intros lo hi k x; simpl.
  - destruct lo; [|discriminate]. intros E. exists []. split; [apply suffix_refl|trivial].
  - assert (Stop : match lo with O => k (c :: s) | S _ => None end = Some x ->
                   exists s', suffix_of s' (c :: s) /\ k s' = Some x).
    { destruct lo; [|discriminate]. intros E. exists (c :: s).
      split; [apply suffix_refl|trivial]. }
    destruct (p c && may_take hi); trivial.
    destruct (rep p (pred lo) (option_map pred hi) s k) eqn:R; trivial.
    intros E. inversion E; subst. apply IH in R as (s' & Hs & Hk).
    exists s'. split; [now apply suffix_cons|trivial].
Qed.

Lemma run_reads_forward r : forall s k x,
  run r s k = Some x ->
  exists s', suffix_of s' s /\ k s' = Some x.
Proof.
  induction r as [c|p|p lo hi|r1 IH1 r2 IH2|r1 IH1 r2 IH2|r1 IH1];
    intros s k x; simpl.
  - destruct s as [|c' s]; [discriminate|]. destruct (c' =? c)%N; [|discriminate].
    intros E. exists s. split; [apply suffix_cons, suffix_refl|trivial].
  - destruct s as [|c' s]; [discriminate|]. destruct (p c'); [|discriminate].
    intros E. exists s. split; [apply suffix_cons, suffix_refl|trivial].
  - apply rep_reads_forward.
  - intros E. apply IH1 in E as (s1 & H1 & E). apply IH2 in E as (s2 & H2 & E).
    exists s2. split; [eapply suffix_trans; eassumption|trivial].
  - destruct (run r1 s k) eqn:R.
    + intros E. inversion E; subst. now apply IH1.
    + apply IH2.
  - destruct (run r1 s k) eqn:R.
    + intros E. inversion E; subst. now apply IH1.
    + intros E. exists s. split; [apply suffix_refl|trivial].
Qed.

Lemma match_at_bounds r s n : match_at r s = Some n -> 0 <= n <= len s.
Proof.
  unfold match_at. destruct (run r s Some) as [rest|] eqn:R; [|discriminate].
  intros E. inversion E; subst.
  apply run_reads_forward in R as (s' & Hs & E'). inversion E'; subst.
  apply suffix_len in Hs. pose proof (len_nonneg rest). lia.
Qed.

(** What the first character of each alternative has to be. *)

Lemma rep1_head p r c s k x :
  run (Cat (Rep p 1 None) r) (c :: s) k = Some x ->
  p c = true /\ run (Cat (Rep p 0 None) r) s k = Some x.
Proof.
  cbn [run rep pred option_map may_take]. destruct (p c); cbn [andb].
  - destruct (rep p 0 None s _); [|discriminate]. now split.
  - discriminate.
Qed.

Lemma chr_head c0 r c s k x :
  run (Cat (Chr c0) r) (c :: s) k = Some x ->
  (c =? c0)%N = true /\ run r s k = Some x.
Proof.
  cbn [run]. destruct (c =? c0)%N; [now split | discriminate].
Qed.

Lemma cls_head p c s k x :
  run (Cls p) (c :: s) k = Some x -> p c = true /\ k s = Some x.
Proof.
  cbn [run]. destruct (p c); [now split | discriminate].
Qed.

(** A match of [BLACKLIST_RE] is never empty and begins with a digit, an
    [E] or a stray character. *)
Lemma blacklist_match_head s n :
  match_at BLACKLIST_RE s = Some n ->
  exists c s', s = c :: s' /\ can_start c = true /\ 1 <= n <= len s.
Proof.
  unfold match_at.
  destruct (run BLACKLIST_RE s Some) as [rest|] eqn:R; [|discriminate].
  intros E. inversion E; subst; clear E.
  destruct s as [|c s]; [discriminate|].
  exists c, s. split; trivial.
  assert (G : can_start c = true /\ suffix_of rest s).
  { unfold can_start, BLACKLIST_RE in *. cbn [run] in R.
    destruct (run RE_PERCENT (c :: s) Some) eqn:R1.
    - inversion R; subst. apply rep1_head in R1 as [D R1]. rewrite D.
      split; trivial.
      apply run_reads_forward in R1 as (s1 & H1 & R1). now inversion R1; subst.
    - destruct (run RE_ADDITIVE (c :: s) Some) eqn:R2.
      + inversion R; subst. apply chr_head in R2 as [D R2]. rewrite D.
        split; [now rewrite orb_true_r|].
        apply run_reads_forward in R2 as (s1 & H1 & R2). now inversion R2; subst.
      + apply cls_head in R as [D R]. rewrite D. inversion R; subst.
        split; [now rewrite orb_true_r | apply suffix_refl]. }
  destruct G as [G1 G2]. split; trivial.
  apply suffix_len in G2. rewrite len_cons. pose proof (len_nonneg rest). lia.
Qed.

Lemma search_from_spec r s : forall pos a b,
  search_from r pos s = Some (a, b) ->
  exists pre rest,
    s = pre ++ rest /\ a = pos + len pre /\ match_at r rest = Some (b - a).
Proof.
  induction s as [|c s IH]; intros pos a b; simpl.
  - destruct (match_at r []) eqn:M; [|discriminate].
    intros E. inversion E; subst. exists [], []. repeat split.
    + unfold len; simpl; lia.
    + rewrite M. f_equal. lia.
  - destruct (match_at r (c :: s)) eqn:M.
    + intros E. inversion E; subst. exists [], (c :: s). repeat split.
      * unfold len; simpl; lia.
      * rewrite M. f_equal. lia.
    + intros E. apply IH in E as (pre & rest & -> & -> & E).
      exists (c :: pre), rest. repeat split; trivial. rewrite len_cons. lia.
Qed.

(** The shape of the text around the first match. *)
Lemma first_match_blacklist s a b :
  first_match BLACKLIST_RE s = Some (a, b) ->
  exists pre c mid post,
    s = pre ++ (c :: mid) ++ post /\ can_start c = true /\
    a = len pre /\ b = len pre + len (c :: mid).
Proof.
  unfold first_match. intros E.
  apply search_from_spec in E as (pre & rest & -> & -> & E).
  apply blacklist_match_head in E as (c & s' & -> & C & B).
  rewrite len_cons in B.
  exists pre, c, (firstn (Z.to_nat (b - (0 + len pre) - 1)) s'),
         (skipn (Z.to_nat (b - (0 + len pre) - 1)) s').
  repeat split; trivial.
  - simpl. now rewrite firstn_skipn.
  - rewrite len_cons. unfold len in *. rewrite length_firstn. lia.
Qed.

Lemma blank_span_shape pre mid post :
  blank_span (pre ++ mid ++ post) (len pre, len pre + len mid)
  = pre ++ repeat SPACE (List.length mid) ++ post.
Proof.
  unfold blank_span. rewrite slice_prefix. f_equal.
  unfold str_mul. replace (len pre + len mid - len pre) with (len mid) by lia.
  unfold len at 1. rewrite Nat2Z.id. f_equal.
  rewrite app_assoc, <- len_app. apply slice_suffix.
Qed.

(** ** The masking loop *)

Lemma triggers_app a b : triggers (a ++ b) = (triggers a + triggers b)%nat.
Proof. unfold triggers. now rewrite filter_app, length_app. Qed.

Lemma space_cannot_start : can_start SPACE = false.
Proof. reflexivity. Qed.

Lemma triggers_blank n : triggers (repeat SPACE n) = 0%nat.
Proof.
  induction n as [|n IH]; [reflexivity | exact IH].
Qed.

Lemma triggers_head c s : can_start c = true -> triggers (c :: s) = S (triggers s).
Proof. intros C. unfold triggers. simpl filter. now rewrite C. Qed.

Lemma triggers_le_length s : (triggers s <= List.length s)%nat.
Proof. apply filter_length_le. Qed.

(** One iteration keeps the length and removes at least one character at
    which a match can begin. *)
Lemma blank_span_progress s m :
  first_match BLACKLIST_RE s = Some m ->
  List.length (blank_span s m) = List.length s /\
  (triggers (blank_span s m) < triggers s)%nat.
Proof.
  destruct m as [a b]. intros E.
  apply first_match_blacklist in E as (pre & c & mid & post & -> & C & -> & ->).
  rewrite blank_span_shape. split.
  - now rewrite !length_app, repeat_length.
  - rewrite !triggers_app, triggers_blank, (triggers_head c mid C). lia.
Qed.

Lemma normalize_loop_enough fuel : forall s,
  (triggers s < fuel)%nat ->
  exists r, normalize_loop fuel s = Some r /\
            first_match BLACKLIST_RE r = None /\
            List.length r = List.length s.
Proof.
  induction fuel as [|fuel IH]; intros s Hf; [lia|].
  simpl. destruct (first_match BLACKLIST_RE s) as [m|] eqn:E.
  - apply blank_span_progress in E as [L T].
    destruct (IH (blank_span s m)) as (r & R & N & L'); [lia|].
    exists r. repeat split; trivial. congruence.
  - exists s. auto.
Qed.

Lemma normalize_loop_more fuel : forall s r extra,
  normalize_loop fuel s = Some r ->
  normalize_loop (fuel + extra) s = Some r.
Proof.
  induction fuel as [|fuel IH]; intros s r extra; simpl; [discriminate|].
  destruct (first_match BLACKLIST_RE s); trivial. apply IH.
Qed.

Lemma normalize_ingredients_run t :
  normalize_loop (S (triggers t)) t = Some (normalize_ingredients t).
Proof.
  destruct (normalize_loop_enough (S (triggers t)) t) as (r & R & _); [lia|].
  rewrite R. unfold normalize_ingredients.
  pose proof (triggers_le_length t) as L.
  replace (S (List.length t))
    with (S (triggers t) + (List.length t - triggers t))%nat by lia.
  now rewrite (normalize_loop_more _ _ _ _ R).
Qed.

Lemma normalize_ingredients_clean t :
  first_match BLACKLIST_RE (normalize_ingredients t) = None.
Proof.
  destruct (normalize_loop_enough (S (triggers t)) t) as (r & R & N & _); [lia|].
  rewrite normalize_ingredients_run in R. now inversion R; subst.
Qed.

Lemma normalize_ingredients_length t :
  List.length (normalize_ingredients t) = List.length t.
Proof.
  destruct (normalize_loop_enough (S (triggers t)) t) as (r & R & _ & L); [lia|].
  rewrite normalize_ingredients_run in R. now inversion R; subst.
Qed.

(** ** The segmenter *)

Lemma chain_le lo offs hi : chain lo offs hi -> lo <= hi.
Proof. induction 1; lia. Qed.

Lemma chain_snoc lo offs hi e :
  chain lo offs hi -> hi <= e -> chain lo (offs ++ [(hi, e)]) (e + 1).
Proof.
  induction 1 as [lo|lo e0 rest hi L C IH]; intros Le; simpl.
  - constructor; [trivial | constructor].
  - constructor; auto.
Qed.

Lemma chain_slots lo offs hi :
  chain lo offs hi ->
  Forall (fun o => lo <= fst o <= snd o /\ snd o < hi) offs /\
  StronglySorted (fun a b => snd a < fst b) offs.
Proof.
  induction 1 as [lo|lo e rest hi L C [F S]].
  - split; constructor.
  - apply chain_le in C as Le. split.
    + constructor; [simpl; lia|].
      eapply Forall_impl; [|exact F]. simpl. intros o Ho. lia.
    + constructor; trivial.
      eapply Forall_impl; [|exact F]. simpl. intros o Ho. lia.
Qed.

Lemma segment_step_inv k st c :
  segment_inv k st -> segment_inv (k + 1) (segment_step st (k, c)).
Proof.
  intros (C & L & N). unfold segment_step, segment_inv.
  destruct (char_in c SPLITTER_CHAR); simpl; rewrite len_app, N.
  - split; [now apply chain_snoc | split; [lia | reflexivity]].
  - split; [trivial | split; [lia | reflexivity]].
Qed.

Lemma segment_loop_inv l : forall k st,
  segment_inv k st ->
  segment_inv (k + len l) (fold_left segment_step (enumerate_from k l) st).
Proof.
  induction l as [|c l IH]; intros k st I; simpl.
  - now replace (k + len (@nil char)) with k by (unfold len; simpl; lia).
  - rewrite len_cons. replace (k + (1 + len l)) with (k + 1 + len l) by lia.
    apply IH. now apply segment_step_inv.
Qed.

Lemma process_ingredients_chain t :
  let ing := process_ingredients t in
  len (normalized ing) = len t /\
  exists hi, chain 0 (offsets ing) hi /\ hi <= len t + 1.
Proof.
  unfold process_ingredients, enumerate. cbn [normalized offsets].
  set (n := normalize_ingredients t).
  assert (Ln : len n = len t).
  { unfold len, n. now rewrite normalize_ingredients_length. }
  destruct (segment_loop_inv n 0 (mkSeg [] [] 0)) as (C & L & N).
  { split; [constructor | split; [simpl; lia | reflexivity]]. }
  set (st := fold_left segment_step (enumerate_from 0 n) (mkSeg [] [] 0)) in *.
  split; [lia|].
  destruct (seg_start_idx st =? len n) eqn:E.
  - exists (seg_start_idx st). split; [exact C | lia].
  - apply Z.eqb_neq in E. exists (len n + 1). split; [|lia].
    apply chain_snoc; [exact C | lia].
Qed.

(** C5: the normaliser and the segmenter preserve the length of the text:
    [len(normalize_ingredients(t)) == len(t)], and the blanked normalised
    string stored by [process_ingredients(t)] has length [len(t)] too. *)
Theorem length_invariance (t : str) :
  len (normalize_ingredients t) = len t /\
  len (normalized (process_ingredients t)) = len t.
Proof.
  split.
  - unfold len. now rewrite normalize_ingredients_length.
  - apply process_ingredients_chain.
Qed.



(** C9, as the code has it: the masking loop terminates on every input.
    Each iteration overwrites the leftmost match with spaces; a space cannot
    begin a match, so the number of characters at which a match can begin
    strictly decreases, and after at most that many iterations the loop
    leaves with a text in which nothing matches (a text of spaces only has
    no match at all). *)
Theorem masking_loop_terminates (t : str) :
  (forall extra,
     normalize_loop (S (triggers t) + extra) t = Some (normalize_ingredients t)) /\
  first_match BLACKLIST_RE (normalize_ingredients t) = None /\
  match first_match BLACKLIST_RE t with
  | Some m => (triggers (blank_span t m) < triggers t)%nat
  | None => normalize_ingredients t = t
  end /\
  can_start SPACE = false /\
  first_match BLACKLIST_RE (repeat SPACE (List.length t)) = None.
Proof.
  split; [|split; [|split; [|split]]].
  - intros extra. apply normalize_loop_more, normalize_ingredients_run.
  - apply normalize_ingredients_clean.
  - destruct (first_match BLACKLIST_RE t) as [m|] eqn:E.
    + now apply blank_span_progress.
    + pose proof (normalize_ingredients_run t) as R.
      cbn [normalize_loop] in R. rewrite E in R. congruence.
  - reflexivity.
  - destruct (first_match _ (repeat _ _)) as [[a b]|] eqn:E; trivial.
    apply blank_span_progress in E as [_ T].
    rewrite triggers_blank in T. lia.
Qed.

(** C9 fails as stated: in ["E_123"] the first iteration blanks the
    underscore, the space it writes at index 1 is part of the next match
    ["E 123"], and the number of substrings the pattern matches is 4 before
    and 4 after that iteration. *)
Lemma inserted_space_is_matched_again :
  first_match BLACKLIST_RE (py "E_123") = Some (1, 2) /\
  blank_span (py "E_123") (1, 2) = py "E 123" /\
  first_match BLACKLIST_RE (py "E 123") = Some (0, 5) /\
  ~ (matchable_substrings (py "E 123") < matchable_substrings (py "E_123"))%nat.
Proof.
  repeat split; try reflexivity.
  vm_compute. lia.
Qed.

(** C10: [normalize_ingredients] is idempotent, because its result contains
    no match of the blacklist pattern. *)
Theorem normalize_ingredients_idempotent (t : str) :
  first_match BLACKLIST_RE (normalize_ingredients t) = None /\
  normalize_ingredients (normalize_ingredients t) = normalize_ingredients t.
Proof.
  pose proof (normalize_ingredients_clean t) as N. split; trivial.
  unfold normalize_ingredients at 1. cbn [normalize_loop]. now rewrite N.
Qed.

(** ** The reconciler *)

Lemma str_eqb_eq a : forall b, str_eqb a b = true <-> a = b.
Proof.
  induction a as [|x a IH]; intros [|y b]; simpl; split; try easy.
  - intros E. apply andb_true_iff in E as [E1 E2].
    apply N.eqb_eq in E1. apply IH in E2. congruence.
  - intros E. inversion E; subst. rewrite N.eqb_refl. now apply IH.
Qed.

Lemma combine_by_index {A B} (da : A) (db : B) (l : list A) : forall (m : list B),
  List.length l = List.length m ->
  combine l m = map (fun i => (nth i l da, nth i m db)) (seq 0 (List.length l)).
Proof.
  induction l as [|x l IH]; intros [|y m] E; simpl in *; try easy.
  f_equal. rewrite <- seq_shift, map_map. apply IH. lia.
Qed.

Section ReconcilerProofs.
Context `{StrMethods}.

(** The loop appends, in order, one correction per diverging pair. *)
Lemma format_loop offset pairs : forall acc,
  fold_left (format_step offset) pairs acc
  = acc ++ map (fun p => mkTermCorrection
                           (token (fst p))
                           (restyle (token (fst p)) (token (snd p)))
                           (offset + token_start (fst p))
                           (offset + token_end (fst p)))
               (filter (fun p => negb (str_eqb (lower (token (fst p)))
                                               (token (snd p))))
                       pairs).
Proof.
  induction pairs as [|[o s] pairs IH]; intros acc; simpl.
  - now rewrite app_nil_r.
  - rewrite IH. unfold format_step. cbn [fst snd].
    destruct (negb (str_eqb (lower (token o)) (token s))); trivial.
    simpl. now rewrite <- app_assoc.
Qed.

Lemma format_corrections_raises original_tokens suggestion_tokens offset :
  format_corrections original_tokens suggestion_tokens offset
    = inl TokenLengthMismatchException
  <-> List.length original_tokens <> List.length suggestion_tokens.
Proof.
  unfold format_corrections.
  destruct (List.length original_tokens =? List.length suggestion_tokens)%nat eqn:E;
    simpl; split; try easy.
  - apply Nat.eqb_eq in E. intros N. now elim N.
  - apply Nat.eqb_neq in E. easy.
Qed.

(** C6: for token lists of equal length and any base offset,
    [format_corrections] returns, in index order, one [TermCorrection] for
    exactly the indices [i] where the lower-cased original token differs
    from the suggestion token; its replacement is the suggestion token
    upper-cased if the original is upper case, else capitalised if the
    original is title case, else unchanged; its offsets are the base offset
    plus the original token's own start and end. *)
Theorem format_corrections_by_index
        (original_tokens suggestion_tokens : list Token) (offset : Z) :
  List.length original_tokens = List.length suggestion_tokens ->
  format_corrections original_tokens suggestion_tokens offset
    = inr (map (correction_at original_tokens suggestion_tokens offset)
               (filter (diverges_at original_tokens suggestion_tokens)
                       (seq 0 (List.length original_tokens))))
  /\ forall i,
       diverges_at original_tokens suggestion_tokens i = true
       <-> lower (token (nth i original_tokens no_token))
           <> token (nth i suggestion_tokens no_token).
Proof.
  intros E. split.
  - unfold format_corrections. rewrite E, Nat.eqb_refl. simpl. f_equal.
    rewrite format_loop. simpl.
    rewrite (combine_by_index no_token no_token) by trivial.
    rewrite <- E. generalize (seq 0 (List.length original_tokens)) as l.
    induction l as [|i l IH]; trivial. simpl.
    unfold diverges_at at 1.
    destruct (negb (str_eqb _ _)); simpl; now rewrite IH.
  - intros i. unfold diverges_at. rewrite negb_true_iff.
    rewrite <- not_true_iff_false. now rewrite str_eqb_eq.
Qed.

End ReconcilerProofs.

(** The three cases of the casing transform, on ASCII tokens: a token that
    only differs by case gives no correction, a title-case token gives a
    capitalised replacement and an upper-case token an upper-case one. *)
Example casing_transform :
  format_corrections
    [mkToken (py "SEL") 0 3; mkToken (py "Sucre") 4 9;
     mkToken (py "FARINE") 10 16; mkToken (py "ble") 17 20]
    [mkToken (py "sel") 0 3; mkToken (py "sucrre") 4 10;
     mkToken (py "farinne") 11 18; mkToken (py "bles") 19 23] 100
  = inr [mkTermCorrection (py "Sucre") (py "Sucrre") 104 109;
         mkTermCorrection (py "FARINE") (py "FARINNE") 110 116;
         mkTermCorrection (py "ble") (py "bles") 117 120].
Proof. reflexivity. Qed.

Lemma format_corrections_by_index_witness :
  format_corrections
    [mkToken (py "Sucre") 1 6; mkToken (py "sel") 7 10]
    [mkToken (py "sucrre") 0 6; mkToken (py "sel") 7 10] 20
  = inr [mkTermCorrection (py "Sucre") (py "Sucrre") 21 26].
Proof.
  exact (proj1 (format_corrections_by_index
                  [mkToken (py "Sucre") 1 6; mkToken (py "sel") 7 10]
                  [mkToken (py "sucrre") 0 6; mkToken (py "sel") 7 10] 20
                  eq_refl)).
Defined.

(** ** The text rebuilder *)

(** C1 fails on the code: with no correction the loop body never runs,
    [last_correction] stays [None], no fragment is appended, and the join of
    the empty list is the empty string, whatever the text.  The caller
    [generate_insights] reaches this case when every [Correction] of a
    product has an empty list of term corrections. *)
Theorem rebuild_without_corrections_is_empty (t : str) :
  generate_corrected_text [] t = [] /\
  generate_corrected_text [] (py "sel") <> py "sel" /\
  product_insight (toy_client [(py "Sel", py "sel")] [] false) (py "Sel")
                  default_kwargs
  = ret (Some (mkInsight [] (py "Sel") [])).
Proof.
  split; [reflexivity|]. split; [discriminate | reflexivity].
Qed.

(** C8: for a single correction [c] with [0 <= s <= e <= len(t)],
    [generate_corrected_text([c], t) == t[:s] + c.correction + t[e:]]: the
    first [s] characters of the text, the replacement, and the text from
    index [e] on. *)
Theorem single_correction_splice (t : str) (c : TermCorrection) :
  0 <= start_offset c ->
  start_offset c <= end_offset c ->
  end_offset c <= len t ->
  generate_corrected_text [c] t
  = firstn (Z.to_nat (start_offset c)) t
      ++ correction c
      ++ skipn (Z.to_nat (end_offset c)) t.
Proof.
  intros Hs Hse He. unfold generate_corrected_text. simpl.
  rewrite slice_to, slice_from by lia. now rewrite app_nil_r.
Qed.

Lemma single_correction_splice_witness :
  generate_corrected_text [mkTermCorrection (py "sell") (py "sel") 7 11]
                          (py "sucre, sell, eau")
  = py "sucre, sel, eau".
Proof.
  exact (single_correction_splice
           (py "sucre, sell, eau")
           (mkTermCorrection (py "sell") (py "sel") 7 11)
           ltac:(simpl; lia) ltac:(simpl; lia) ltac:(vm_compute; discriminate)).
Defined.

(** ** The monad *)

Lemma bind_inr {A B} (m : M A) (f : A -> M B) log y :
  bind m f = (log, inr y) ->
  exists l1 x l2, m = (l1, inr x) /\ f x = (l2, inr y) /\ log = l1 ++ l2.
Proof.
  unfold bind. destruct m as [l1 [e|x]]; [discriminate|].
  destruct (f x) as [l2 r] eqn:F. intros E. inversion E; subst.
  now exists l1, x, l2.
Qed.

Lemma mismatch_free_bind {A B} (m : M A) (f : A -> M B) :
  mismatch_free m -> (forall x, mismatch_free (f x)) -> mismatch_free (bind m f).
Proof.
  unfold mismatch_free, bind. intros Hm Hf.
  destruct m as [l1 [e|x]]; simpl in *.
  - intros E. apply Hm. now inversion E.
  - specialize (Hf x). now destruct (f x).
Qed.

Lemma mismatch_free_for_each {S A} (body : S -> A -> M S) xs :
  (forall st x, mismatch_free (body st x)) ->
  forall st, mismatch_free (for_each xs st body).
Proof.
  intros Hb. induction xs as [|x xs IH]; intros st; simpl.
  - discriminate.
  - apply mismatch_free_bind; auto.
Qed.

Lemma mismatch_free_getitem {A} (l : list A) i : mismatch_free (getitem l i).
Proof.
  unfold getitem, mismatch_free.
  destruct (_ <? 0); [discriminate|]. now destruct (nth_error _ _).
Qed.

Lemma getitem_nth {A} (l : list A) (i : nat) x :
  nth_error l i = Some x -> getitem l (Z.of_nat i) = ret x.
Proof.
  intros E. unfold getitem.
  destruct (Z.of_nat i <? 0) eqn:N; [apply Z.ltb_lt in N; lia|].
  rewrite N, Nat2Z.id, E. reflexivity.
Qed.

Lemma mismatch_free_suggest_batch client texts kw :
  mismatch_free (_suggest_batch client texts kw).
Proof.
  unfold _suggest_batch. apply mismatch_free_for_each. intros st r.
  unfold suggest_step. destruct (negb _).
  - apply mismatch_free_bind; [destruct (error _); discriminate|].
    intros causes. apply mismatch_free_bind; [apply mismatch_free_getitem|].
    intros rc. apply mismatch_free_bind; discriminate.
  - apply mismatch_free_bind; [apply mismatch_free_getitem | discriminate].
Qed.

(** ** The pipeline *)

Section PipelineProofs.
Context `{StrMethods}.

Lemma format_corrections_only_mismatch o s offset e :
  format_corrections o s offset = inl e -> e = TokenLengthMismatchException.
Proof.
  unfold format_corrections. destruct (negb _); congruence.
Qed.

Lemma format_corrections_agree o s offset :
  tokens_agree o s -> format_corrections o s offset = inr [].
Proof.
  intros F. unfold format_corrections.
  rewrite (Forall2_length F), Nat.eqb_refl. simpl. f_equal.
  rewrite format_loop. simpl.
  induction F as [|a b o s E F IH]; trivial. simpl.
  apply str_eqb_eq in E. rewrite E. simpl. exact IH.
Qed.

Lemma mismatch_free_correction_step client ing corrections item :
  mismatch_free (correction_step client ing corrections item).
Proof.
  destruct item as [idx sugg]. unfold correction_step.
  apply mismatch_free_bind; [apply mismatch_free_getitem|]. intros off.
  apply mismatch_free_bind.
  { unfold get_normalized_ingredient.
    apply mismatch_free_bind; [apply mismatch_free_getitem | discriminate]. }
  intros n. destruct (options sugg) as [|top rest]; [discriminate|].
  destruct (format_corrections _ _ _) as [e|tcs] eqn:F; [|discriminate].
  apply format_corrections_only_mismatch in F. subst e.
  apply mismatch_free_bind; discriminate.
Qed.

(** The loop body on a slot that has a suggestion. *)
Lemma correction_step_option client ing corrections (i : nat) top rest off :
  nth_error (offsets ing) i = Some off ->
  correction_step client ing corrections
                  (Z.of_nat i, mkSuggestion (top :: rest))
  = let o := analyze client
               (slice (normalized ing) (Some (fst off)) (Some (snd off))) in
    let s := analyze client (option_text top) in
    match format_corrections o s (fst off) with
    | inr tcs => ret (corrections ++ [mkCorrection tcs (option_score top)])
    | inl _ => ([Warned o s], inr corrections)
    end.
Proof.
  intros E. unfold correction_step, get_normalized_ingredient.
  rewrite (getitem_nth _ _ _ E). cbn [ret bind options app].
  destruct (format_corrections _ _ _) as [e|tcs] eqn:F; trivial.
  apply format_corrections_only_mismatch in F. now subst e.
Qed.

(** One iteration, in terms of what the slot brings. *)
Lemma correction_step_closed client ing corrections (i : nat) slot sugg :
  nth_error (offsets ing) i = Some slot ->
  correction_step client ing corrections (Z.of_nat i, sugg)
  = (slot_warning client ing (slot, sugg),
     inr (corrections ++ slot_corrections client ing (slot, sugg))).
Proof.
  intros N. destruct sugg as [[|top rest]].
  - unfold correction_step, get_normalized_ingredient.
    rewrite (getitem_nth _ _ _ N). cbn [ret bind options app].
    unfold slot_warning, slot_corrections. cbn [options].
    now rewrite app_nil_r.
  - rewrite (correction_step_option _ _ _ _ _ _ _ N). cbv zeta.
    unfold slot_warning, slot_corrections. cbn [options].
    set (o := analyze client _). set (s := analyze client _).
    pose proof (format_corrections_raises o s (fst slot)) as R.
    destruct (format_corrections o s (fst slot)) as [e|tcs] eqn:F.
    + apply format_corrections_only_mismatch in F as ->.
      destruct R as [R _]. specialize (R eq_refl).
      apply Nat.eqb_neq in R. rewrite R. now rewrite app_nil_r.
    + destruct (List.length o =? List.length s)%nat eqn:L; trivial.
      apply Nat.eqb_neq in L. apply R in L. discriminate.
Qed.

(** The whole loop: the warnings and the corrections of the slots, in slot
    order. *)
Lemma correction_loop_closed client ing suggs : forall pre rest corrections,
  offsets ing = pre ++ rest ->
  (List.length suggs <= List.length rest)%nat ->
  for_each (enumerate_from (Z.of_nat (List.length pre)) suggs) corrections
           (correction_step client ing)
  = (flat_map (slot_warning client ing) (combine rest suggs),
     inr (corrections
            ++ flat_map (slot_corrections client ing) (combine rest suggs))).
Proof.
  induction suggs as [|sugg suggs IH]; intros pre rest corrections E L;
    cbn [enumerate_from for_each].
  - destruct rest; simpl; now rewrite app_nil_r.
  - destruct rest as [|slot rest]; [simpl in L; lia|].
    assert (N : nth_error (offsets ing) (List.length pre) = Some slot).
    { rewrite E, nth_error_app2, Nat.sub_diag by lia. reflexivity. }
    rewrite (correction_step_closed _ _ _ _ _ _ N).
    replace (Z.of_nat (List.length pre) + 1)
      with (Z.of_nat (List.length (pre ++ [slot])))
      by (rewrite length_app; simpl; lia).
    unfold bind. rewrite (IH (pre ++ [slot]) rest).
    + cbn [combine flat_map]. now rewrite <- app_assoc.
    + now rewrite <- app_assoc.
    + simpl in L. lia.
Qed.

Lemma generate_corrections_closed client ingredients_text kw log0 suggs :
  _suggest_batch client
    (iter_normalized_ingredients (process_ingredients ingredients_text)) kw
    = (log0, inr suggs) ->
  (List.length suggs
   <= List.length (offsets (process_ingredients ingredients_text)))%nat ->
  generate_corrections client ingredients_text kw
  = (log0 ++ flat_map (slot_warning client (process_ingredients ingredients_text))
                      (combine (offsets (process_ingredients ingredients_text))
                               suggs),
     inr (flat_map (slot_corrections client (process_ingredients ingredients_text))
                   (combine (offsets (process_ingredients ingredients_text))
                            suggs))).
Proof.
  intros B L. unfold generate_corrections. rewrite B. unfold bind, enumerate.
  pose proof (correction_loop_closed client _ suggs [] _ [] eq_refl L) as C.
  cbn [List.length Z.of_nat app] in C. now rewrite C.
Qed.

(** C7: [format_corrections] raises [TokenLengthMismatchException] exactly
    when the two token lists differ in length; [generate_corrections] never
    ends in that exception; on a slot whose token counts differ its loop
    body logs the warning and leaves the list of corrections as it was; and
    whenever the batch returned (at most one entry per slot),
    [generate_corrections] returns normally, its log being the batch's log
    followed by one warning for each slot whose token counts differ, and
    its result the corrections of the other slots that have an option, in
    slot order. *)
Theorem token_count_mismatch_is_recovered
        (client : Client) (ingredients_text : str) (kw : Kwargs) :
  (forall original_tokens suggestion_tokens offset,
     format_corrections original_tokens suggestion_tokens offset
       = inl TokenLengthMismatchException
     <-> List.length original_tokens <> List.length suggestion_tokens) /\
  mismatch_free (generate_corrections client ingredients_text kw) /\
  (forall ingredients corrections (i : nat) top rest off,
     nth_error (offsets ingredients) i = Some off ->
     let original_tokens :=
       analyze client
         (slice (normalized ingredients) (Some (fst off)) (Some (snd off))) in
     let suggestion_tokens := analyze client (option_text top) in
     List.length original_tokens <> List.length suggestion_tokens ->
     correction_step client ingredients corrections
                     (Z.of_nat i, mkSuggestion (top :: rest))
     = ([Warned original_tokens suggestion_tokens], inr corrections)) /\
  (forall log0 suggestions,
     let ingredients := process_ingredients ingredients_text in
     _suggest_batch client (iter_normalized_ingredients ingredients) kw
       = (log0, inr suggestions) ->
     (List.length suggestions <= List.length (offsets ingredients))%nat ->
     generate_corrections client ingredients_text kw
     = (log0 ++ flat_map (slot_warning client ingredients)
                         (combine (offsets ingredients) suggestions),
        inr (flat_map (slot_corrections client ingredients)
                      (combine (offsets ingredients) suggestions)))).
Proof.
  split; [|split; [|split]].
  - intros o s offset. apply format_corrections_raises.
  - unfold generate_corrections. apply mismatch_free_bind.
    + apply mismatch_free_suggest_batch.
    + intros suggs. apply mismatch_free_for_each. intros st x.
      apply mismatch_free_correction_step.
  - intros ing corrections i top rest off O o s L.
    rewrite (correction_step_option _ _ _ _ _ _ _ O). cbv zeta.
    apply (format_corrections_raises o s (fst off)) in L.
    fold o s. now rewrite L.
  - intros log0 suggs ing B L. now apply generate_corrections_closed.
Qed.

End PipelineProofs.

(** C3 fails on the code.  A slot that has a suggestion and no diverging
    token is not dropped: [format_corrections] returns the empty list and
    [generate_corrections] appends a [Correction] with no term correction
    for that very slot (for every client, the slot brings exactly this one
    element).  On ["Sel"] with the suggestion ["sel"] the result is one
    empty [Correction]; on ["Sel,sell"] the first slot's empty [Correction]
    stands in front of the second slot's real one; and the guard
    [if not corrections: continue] of [generate_insights] no longer skips
    the product, which gets an insight with no correction. *)
Theorem matching_slot_is_kept_as_empty_correction :
  (forall (H : StrMethods) client ingredients slot top rest,
     @tokens_agree H
       (analyze client
          (slice (normalized ingredients) (Some (fst slot)) (Some (snd slot))))
       (analyze client (option_text top)) ->
     @slot_corrections H client ingredients (slot, mkSuggestion (top :: rest))
     = [mkCorrection [] (option_score top)]) /\
  format_corrections (words (py "Sel")) (words (py "sel")) 0 = inr [] /\
  generate_corrections (toy_client [(py "Sel", py "sel")] [] false) (py "Sel")
                       default_kwargs
  = ret [mkCorrection [] 1] /\
  generate_corrections
    (toy_client [(py "Sel", py "sel"); (py "sell", py "sel")] [] false)
    (py "Sel,sell") default_kwargs
  = ret [mkCorrection [] 1;
         mkCorrection [mkTermCorrection (py "sell") (py "sel") 4 8] 1] /\
  product_insight (toy_client [(py "Sel", py "sel")] [] false) (py "Sel")
                  default_kwargs
  = ret (Some (mkInsight [] (py "Sel") [])).
Proof.
  split; [|repeat split; reflexivity].
  intros H client ing slot top rest A. unfold slot_corrections. cbn [options].
  now rewrite (@format_corrections_agree H _ _ (fst slot) A).
Qed.

Lemma token_count_mismatch_is_recovered_witness :
  let client :=
    toy_client [(py "sel", py "sel de mer"); (py "sucrre", py "sucre")]
               [] false in
  List.length (words (py "sel")) <> List.length (words (py "sel de mer")) /\
  generate_corrections client (py "sel,sucrre") default_kwargs
  = ([Warned (words (py "sel")) (words (py "sel de mer"))],
     inr [mkCorrection [mkTermCorrection (py "sucrre") (py "sucre") 4 10] 1]).
Proof.
  split; [discriminate|].
  refine (eq_trans
            (proj2 (proj2 (proj2 (token_count_mismatch_is_recovered
               (toy_client [(py "sel", py "sel de mer");
                            (py "sucrre", py "sucre")] [] false)
               (py "sel,sucrre") default_kwargs)))
               []
               [mkSuggestion [mkSuggestOption (py "sel de mer") 1];
                mkSuggestion [mkSuggestOption (py "sucre") 1]]
               _ _) _).
  - reflexivity.
  - vm_compute. lia.
  - reflexivity.
Defined.

(** C2 fails on the code.  Five slots, the third one's response has status
    500.  [_suggest_batch] skips the failed response without leaving a
    placeholder, so the responses of slots 4 and 5 are read at indices 2 and
    3: slot 3 (["sell"], offsets 15-19) is corrected with the suggestion for
    slot 4, slot 4 (offsets 20-25) with the suggestion for slot 5, and slot
    5 gets nothing.  When the answer has no top-level [error] key the lookup
    made for the log message raises [KeyError] and the batch is aborted. *)
Theorem failed_item_shifts_later_slots :
  offsets (process_ingredients five_slots)
  = [(0, 7); (8, 14); (15, 19); (20, 25); (26, 32)] /\
  generate_corrections (toy_client respellings [py "sell"] true) five_slots
                       default_kwargs
  = ([Printed (py "bad query") (py "parsing_exception")],
     inr [mkCorrection [mkTermCorrection (py "farinne") (py "farine") 0 7] 1;
          mkCorrection [mkTermCorrection (py "sucrre") (py "sucre") 8 14] 1;
          mkCorrection [mkTermCorrection (py "sell") (py "beurre") 15 19] 1;
          mkCorrection [mkTermCorrection (py "beure") (py "oeufs") 20 25] 1]) /\
  generate_corrections (toy_client respellings [py "sell"] false) five_slots
                       default_kwargs
  = ([], inl (KeyError "error")).
Proof. repeat split; reflexivity. Qed.

(** Without a failure every slot is corrected at its own offsets. *)
Example five_slots_without_failure :
  generate_corrections (toy_client respellings [] true) five_slots
                       default_kwargs
  = ret [mkCorrection [mkTermCorrection (py "farinne") (py "farine") 0 7] 1;
         mkCorrection [mkTermCorrection (py "sucrre") (py "sucre") 8 14] 1;
         mkCorrection [mkTermCorrection (py "sell") (py "sel") 15 19] 1;
         mkCorrection [mkTermCorrection (py "beure") (py "beurre") 20 25] 1;
         mkCorrection [mkTermCorrection (py "oeuffs") (py "oeufs") 26 32] 1].
Proof. reflexivity. Qed.

(** The end-to-end scenario of the normaliser and the segmenter. *)
Example farine_de_ble :
  let ing := process_ingredients (py "Farine de ble (12%), sel, E330") in
  normalize_ingredients (py "Farine de ble (12%), sel, E330")
    = py "Farine de ble (   ), sel,     " /\
  normalized ing = py "Farine de ble        sel      " /\
  offsets ing = [(0, 14); (15, 18); (19, 19); (20, 24); (25, 30)].
Proof. repeat split; reflexivity. Qed.

(** * Further properties *)

(** ** The pattern and the normaliser *)

Lemma same_or_blank_refl s : Forall2 same_or_blank s s.
Proof. induction s; constructor; trivial. now left. Qed.

Lemma same_or_blank_trans a : forall b c,
  Forall2 same_or_blank a b -> Forall2 same_or_blank b c ->
  Forall2 same_or_blank a c.
Proof.
  induction a as [|x a IH]; intros b c Hab Hbc;
    inversion Hab; subst; inversion Hbc; subst; constructor.
  - unfold same_or_blank in *. intuition congruence.
  - eapply IH; eassumption.
Qed.

Lemma blanks_pointwise mid :
  Forall2 same_or_blank mid (repeat SPACE (List.length mid)).
Proof. induction mid; simpl; constructor; trivial. now right. Qed.

Lemma blank_span_pointwise s m :
  first_match BLACKLIST_RE s = Some m ->
  Forall2 same_or_blank s (blank_span s m).
Proof.
  destruct m as [a b]. intros E.
  apply first_match_blacklist in E as (pre & c & mid & post & -> & _ & -> & ->).
  rewrite blank_span_shape.
  repeat apply Forall2_app;
    auto using same_or_blank_refl, blanks_pointwise.
Qed.

Lemma normalize_loop_pointwise fuel : forall s r,
  normalize_loop fuel s = Some r -> Forall2 same_or_blank s r.
Proof.
  induction fuel as [|fuel IH]; intros s r; simpl; [discriminate|].
  destruct (first_match BLACKLIST_RE s) as [m|] eqn:E.
  - intros R. eapply same_or_blank_trans; [|apply IH, R].
    now apply blank_span_pointwise.
  - intros R. inversion R; subst. apply same_or_blank_refl.
Qed.

(** The normaliser only ever blanks characters: at every index the
    normalised text holds the original character or a space. *)
Theorem normalize_only_blanks (t : str) :
  Forall2 same_or_blank t (normalize_ingredients t).
Proof.
  eapply normalize_loop_pointwise, normalize_ingredients_run.
Qed.

(** A match of the blacklist pattern is never empty and lies inside the
    text. *)
Theorem blacklist_match_is_a_span (s : str) (a b : Z) :
  first_match BLACKLIST_RE s = Some (a, b) ->
  0 <= a /\ a < b /\ b <= len s.
Proof.
  intros E.
  apply first_match_blacklist in E as (pre & c & mid & post & -> & _ & -> & ->).
  rewrite !len_app, !len_cons.
  pose proof (len_nonneg pre). pose proof (len_nonneg mid).
  pose proof (len_nonneg post). lia.
Qed.

Lemma blacklist_match_is_a_span_witness :
  first_match BLACKLIST_RE (py "sel 12,5 %") = Some (4, 10) /\
  0 <= 4 /\ 4 < 10 /\ 10 <= len (py "sel 12,5 %").
Proof.
  split; [reflexivity|].
  exact (blacklist_match_is_a_span (py "sel 12,5 %") 4 10 eq_refl).
Defined.

Lemma search_from_none r s : forall pos pre rest,
  search_from r pos s = None -> s = pre ++ rest -> match_at r rest = None.
Proof.
  induction s as [|c s IH]; intros pos pre rest; simpl.
  - destruct (match_at r []) eqn:M; [discriminate|].
    intros _ E. symmetry in E. apply app_eq_nil in E as [_ ->]. exact M.
  - destruct (match_at r (c :: s)) eqn:M; [discriminate|].
    intros E P. destruct pre as [|x pre]; simpl in P.
    + now subst rest.
    + inversion P; subst. eapply IH; [exact E | reflexivity].
Qed.

Lemma stray_is_matched c s :
  is_stray c = true -> match_at BLACKLIST_RE (c :: s) <> None.
Proof.
  intros C. unfold match_at, BLACKLIST_RE. cbn [run].
  destruct (run RE_PERCENT (c :: s) Some); [discriminate|].
  destruct (run RE_ADDITIVE (c :: s) Some); [discriminate|].
  unfold RE_STRAY. cbn [run]. rewrite C. discriminate.
Qed.

Lemma unmatched_has_no_stray s c :
  first_match BLACKLIST_RE s = None -> In c s -> is_stray c = false.
Proof.
  intros N I. apply in_split in I as (pre & post & E).
  unfold first_match in N.
  pose proof (search_from_none _ _ _ _ _ N E) as M.
  destruct (is_stray c) eqn:C; trivial.
  now apply (stray_is_matched c post) in C.
Qed.

(** After normalisation no underscore, bullet, colon or ASCII digit is
    left in the text. *)
Theorem normalized_has_no_stray_character (t : str) :
  Forall (fun c => is_stray c = false) (normalize_ingredients t).
Proof.
  apply Forall_forall. intros c I.
  eapply unmatched_has_no_stray; [apply normalize_ingredients_clean | exact I].
Qed.

(** ** The segmenter *)

Lemma segment_chars l : forall k st,
  seg_chars (fold_left segment_step (enumerate_from k l) st)
  = seg_chars st ++ map (fun c => if is_splitter c then SPACE else c) l.
Proof.
  induction l as [|c l IH]; intros k st; cbn [fold_left enumerate_from map].
  - now rewrite app_nil_r.
  - rewrite IH. unfold segment_step, is_splitter.
    destruct (char_in c SPLITTER_CHAR); cbn [seg_chars];
      now rewrite <- app_assoc.
Qed.

Lemma process_ingredients_normalized t :
  normalized (process_ingredients t)
  = map (fun c => if is_splitter c then SPACE else c) (normalize_ingredients t).
Proof.
  unfold process_ingredients, enumerate. cbn [normalized].
  now rewrite segment_chars.
Qed.

Lemma splitters_blanked s :
  Forall2 same_or_blank s (map (fun c => if is_splitter c then SPACE else c) s).
Proof.
  induction s as [|c s IH]; simpl; constructor; trivial.
  destruct (is_splitter c); [now right | now left].
Qed.

(** [process_ingredients] keeps the text as it is, and at every index its
    normalised string holds the character of the text or a space. *)
Theorem process_ingredients_only_blanks (t : str) :
  text (process_ingredients t) = t /\
  Forall2 same_or_blank t (normalized (process_ingredients t)).
Proof.
  split; [reflexivity|]. rewrite process_ingredients_normalized.
  eapply same_or_blank_trans; [|apply splitters_blanked].
  eapply normalize_loop_pointwise, normalize_ingredients_run.
Qed.

(** The normalised string of [process_ingredients] holds no separator and
    no underscore, bullet, colon or ASCII digit. *)
Theorem processed_text_is_clean (t : str) :
  Forall (fun c => is_splitter c = false /\ is_stray c = false)
         (normalized (process_ingredients t)).
Proof.
  rewrite process_ingredients_normalized.
  apply Forall_forall. intros c I. apply in_map_iff in I as (x & E & I).
  apply (unmatched_has_no_stray _ _ (normalize_ingredients_clean t)) in I.
  destruct (is_splitter x) eqn:S; subst c; [split; reflexivity | now split].
Qed.

Lemma segment_offsets_count l : forall k st,
  List.length (seg_offsets (fold_left segment_step (enumerate_from k l) st))
  = (List.length (seg_offsets st) + List.length (filter is_splitter l))%nat.
Proof.
  induction l as [|c l IH]; intros k st;
    cbn [fold_left enumerate_from filter].
  - simpl. lia.
  - rewrite IH. unfold segment_step, is_splitter.
    destruct (char_in c SPLITTER_CHAR); cbn [seg_offsets]; [|reflexivity].
    rewrite length_app. simpl. lia.
Qed.

Lemma ends_with_splitter_cons c l :
  l <> [] -> ends_with_splitter (c :: l) = ends_with_splitter l.
Proof.
  intros N. unfold ends_with_splitter. simpl rev.
  destruct (rev l) as [|y r] eqn:R; [|reflexivity].
  apply (f_equal (@rev char)) in R. rewrite rev_involutive in R. now elim N.
Qed.

Lemma segment_start_idx l : forall k st,
  seg_start_idx st <= k ->
  (seg_start_idx (fold_left segment_step (enumerate_from k l) st)
     =? k + len l)
  = match l with
    | [] => seg_start_idx st =? k
    | _ => ends_with_splitter l
    end.
Proof.
  induction l as [|c l IH]; intros k st L; cbn [fold_left enumerate_from].
  - now replace (k + len (@nil char)) with k by (unfold len; simpl; lia).
  - rewrite len_cons. replace (k + (1 + len l)) with (k + 1 + len l) by lia.
    assert (L1 : seg_start_idx (segment_step st (k, c)) <= k + 1).
    { unfold segment_step. destruct (char_in c SPLITTER_CHAR); simpl; lia. }
    rewrite (IH _ _ L1). destruct l as [|x l].
    + unfold segment_step, ends_with_splitter, is_splitter. simpl rev.
      destruct (char_in c SPLITTER_CHAR); cbn [seg_start_idx].
      * apply Z.eqb_refl.
      * apply Z.eqb_neq. lia.
    + symmetry. now apply ends_with_splitter_cons.
Qed.

(** The number of slots is the number of separators left in the normalised
    text, plus one when that text is not empty and does not end with a
    separator. *)
Theorem slot_count (t : str) :
  ingredient_count (process_ingredients t)
  = len (filter is_splitter (normalize_ingredients t))
    + match normalize_ingredients t with
      | [] => 0
      | _ => if ends_with_splitter (normalize_ingredients t) then 0 else 1
      end.
Proof.
  unfold ingredient_count, process_ingredients, enumerate. cbn [offsets].
  set (n := normalize_ingredients t).
  pose proof (segment_start_idx n 0 (mkSeg [] [] 0)) as E.
  pose proof (segment_offsets_count n 0 (mkSeg [] [] 0)) as C.
  cbn [seg_start_idx seg_offsets] in E, C. rewrite Z.add_0_l in E.
  rewrite E by lia. unfold len in *.
  destruct n as [|c n].
  - reflexivity.
  - destruct (ends_with_splitter (c :: n)).
    + rewrite C. simpl List.length. lia.
    + rewrite length_app, C. simpl List.length. lia.
Qed.

(** ** Slot texts *)

Lemma slice_mid {A} (t : list A) (a b : Z) :
  0 <= a -> a <= b -> b <= len t ->
  slice t (Some a) (Some b) = firstn (Z.to_nat (b - a)) (skipn (Z.to_nat a) t).
Proof.
  intros Ha Hab Hb. unfold slice, clamp.
  destruct (a <? 0) eqn:E1; [apply Z.ltb_lt in E1; lia|].
  destruct (b <? 0) eqn:E2; [apply Z.ltb_lt in E2; lia|].
  now rewrite !Z.min_l by lia.
Qed.

Lemma len_slice_mid {A} (t : list A) (a b : Z) :
  0 <= a -> a <= b -> b <= len t -> len (slice t (Some a) (Some b)) = b - a.
Proof.
  intros Ha Hab Hb. rewrite slice_mid by trivial. unfold len in *.
  rewrite length_firstn, length_skipn. lia.
Qed.

Lemma Forall2_firstn {A B} (P : A -> B -> Prop) n : forall l l',
  Forall2 P l l' -> Forall2 P (firstn n l) (firstn n l').
Proof.
  induction n as [|n IH]; intros l l' F; simpl; [constructor|].
  destruct F; constructor; auto.
Qed.

Lemma Forall2_skipn {A B} (P : A -> B -> Prop) n : forall l l',
  Forall2 P l l' -> Forall2 P (skipn n l) (skipn n l').
Proof.
  induction n as [|n IH]; intros l l' F; simpl; trivial.
  destruct F; [constructor | auto].
Qed.

Lemma slot_in_text t o :
  In o (offsets (process_ingredients t)) ->
  0 <= fst o /\ fst o <= snd o /\ snd o <= len t.
Proof.
  intros I. destruct (process_ingredients_chain t) as (_ & hi & C & Hi).
  apply chain_slots in C as [F _].
  rewrite Forall_forall in F. apply F in I. lia.
Qed.

(** For every slot, [get_ingredient] and [get_normalized_ingredient] return
    texts of the same length [end - start], and at every index the
    normalised one holds the character of the original one or a space. *)
Theorem slot_texts_are_aligned (t : str) (i : nat) (o : OffsetType) :
  nth_error (offsets (process_ingredients t)) i = Some o ->
  exists original_text normalized_text,
    get_ingredient (process_ingredients t) (Z.of_nat i) = ret original_text /\
    get_normalized_ingredient (process_ingredients t) (Z.of_nat i)
      = ret normalized_text /\
    len original_text = snd o - fst o /\
    len normalized_text = snd o - fst o /\
    Forall2 same_or_blank original_text normalized_text.
Proof.
  intros N. pose proof (slot_in_text t o (nth_error_In _ _ N)) as (B1 & B2 & B3).
  destruct (process_ingredients_chain t) as (Ln & _).
  exists (slice t (Some (fst o)) (Some (snd o))),
         (slice (normalized (process_ingredients t))
                (Some (fst o)) (Some (snd o))).
  unfold get_ingredient, get_normalized_ingredient.
  rewrite (getitem_nth _ _ _ N). cbn [bind ret app text].
  repeat split.
  - now apply len_slice_mid.
  - apply len_slice_mid; trivial. cbv zeta in Ln. lia.
  - rewrite !slice_mid; trivial; [|cbv zeta in Ln; lia].
    apply Forall2_firstn, Forall2_skipn.
    rewrite process_ingredients_normalized.
    eapply same_or_blank_trans; [|apply splitters_blanked].
    eapply normalize_loop_pointwise, normalize_ingredients_run.
Qed.

Lemma slot_texts_are_aligned_witness :
  get_ingredient (process_ingredients (py "sel 5%,eau")) 0 = ret (py "sel 5%") /\
  get_normalized_ingredient (process_ingredients (py "sel 5%,eau")) 0
    = ret (py "sel   ") /\
  exists original_text normalized_text,
    get_ingredient (process_ingredients (py "sel 5%,eau")) (Z.of_nat 0)
      = ret original_text /\
    get_normalized_ingredient (process_ingredients (py "sel 5%,eau")) (Z.of_nat 0)
      = ret normalized_text /\
    len original_text = snd (0, 6) - fst (0, 6) /\
    len normalized_text = snd (0, 6) - fst (0, 6) /\
    Forall2 same_or_blank original_text normalized_text.
Proof.
  split; [reflexivity|]. split; [reflexivity|].
  exact (slot_texts_are_aligned (py "sel 5%,eau") 0 (0, 6) eq_refl).
Defined.

(** For an index counted from the start, [get_normalized_ingredient] returns
    the item that [iter_normalized_ingredients] yields at that position, and
    raises [IndexError] past the last slot; [get_ingredient] raises
    [IndexError] for the same indices. *)
Theorem get_normalized_ingredient_follows_iter (self : Ingredients) (i : nat) :
  get_normalized_ingredient self (Z.of_nat i)
  = match nth_error (iter_normalized_ingredients self) i with
    | Some s => ret s
    | None => raise IndexError
    end /\
  get_ingredient self (Z.of_nat i)
  = match nth_error (offsets self) i with
    | Some o => ret (slice (text self) (Some (fst o)) (Some (snd o)))
    | None => raise IndexError
    end.
Proof.
  unfold get_normalized_ingredient, get_ingredient,
    iter_normalized_ingredients, getitem.
  destruct (Z.of_nat i <? 0) eqn:N; [apply Z.ltb_lt in N; lia|].
  rewrite N, Nat2Z.id, nth_error_map. unfold OffsetType in *.
  destruct (nth_error _ i) as [[a b]|]; simpl; split; reflexivity.
Qed.

(** ** The slots and the separators make up the normalised string *)

Lemma enumerate_from_app {A} (l m : list A) : forall k,
  enumerate_from k (l ++ m)
  = enumerate_from k l ++ enumerate_from (k + len l) m.
Proof.
  induction l as [|x l IH]; intros k; simpl.
  - now replace (k + len (@nil A)) with k by (unfold len; simpl; lia).
  - rewrite IH, len_cons. now replace (k + 1 + len l) with (k + (1 + len l)) by lia.
Qed.

Lemma slice_of_prefix {A} (l x : list A) (a b : Z) :
  0 <= a -> a <= b -> b <= len l ->
  slice (l ++ x) (Some a) (Some b) = slice l (Some a) (Some b).
Proof.
  intros Ha Hab Hb. rewrite !slice_mid; trivial.
  - unfold len in *. rewrite skipn_app, firstn_app.
    replace (Z.to_nat (b - a) - List.length (skipn (Z.to_nat a) l))%nat
      with 0%nat by (rewrite length_skipn; lia).
    simpl. apply app_nil_r.
  - rewrite len_app. pose proof (len_nonneg x). lia.
Qed.

Lemma slice_to_end {A} (l : list A) (a : Z) :
  0 <= a -> a <= len l ->
  slice l (Some a) (Some (len l)) = skipn (Z.to_nat a) l.
Proof.
  intros Ha Hb. rewrite slice_mid by lia. apply firstn_all2.
  unfold len in *. rewrite length_skipn. lia.
Qed.

Lemma join_snoc sep parts x :
  join sep (parts ++ [x]) = concat (map (fun p => p ++ sep) parts) ++ x.
Proof.
  induction parts as [|p parts IH]; trivial.
  destruct parts as [|q parts].
  - simpl. now rewrite app_nil_r, <- app_assoc.
  - change (join sep ((p :: q :: parts) ++ [x]))
      with (p ++ sep ++ join sep ((q :: parts) ++ [x])).
    rewrite IH. cbn [map concat]. now rewrite <- !app_assoc.
Qed.

Lemma join_closed sep parts :
  parts <> [] ->
  concat (map (fun p => p ++ sep) parts) = join sep parts ++ sep.
Proof.
  intros N. destruct (exists_last N) as (front & x & ->).
  rewrite join_snoc, map_app, concat_app. simpl. now rewrite app_nil_r, app_assoc.
Qed.

(** After a prefix [p] of the text: the blanked prefix is the closed slots,
    each followed by the space of its separator, then the open slot. *)
Lemma segment_pieces p :
  let st := fold_left segment_step (enumerate_from 0 p) (mkSeg [] [] 0) in
  let b := map (fun c => if is_splitter c then SPACE else c) p in
  b = concat (map (fun o => slice b (Some (fst o)) (Some (snd o)) ++ [SPACE])
                  (seg_offsets st))
        ++ skipn (Z.to_nat (seg_start_idx st)) b.
Proof.
  induction p as [|c p IH] using rev_ind; [reflexivity|].
  cbv zeta in *. rewrite enumerate_from_app, fold_left_app, map_app.
  cbn [enumerate_from fold_left map].
  destruct (segment_loop_inv p 0 (mkSeg [] [] 0)) as (C & L & _).
  { split; [constructor | split; [simpl; lia | reflexivity]]. }
  set (st := fold_left segment_step (enumerate_from 0 p) (mkSeg [] [] 0)) in *.
  set (b := map (fun c => if is_splitter c then SPACE else c) p) in *.
  assert (Lb : len b = len p) by (unfold b, len; now rewrite length_map).
  rewrite Z.add_0_l in *.
  pose proof (chain_le _ _ _ C) as Le. apply chain_slots in C as [F _].
  assert (Old : forall x,
    map (fun o => slice (b ++ x) (Some (fst o)) (Some (snd o)) ++ [SPACE])
        (seg_offsets st)
    = map (fun o => slice b (Some (fst o)) (Some (snd o)) ++ [SPACE])
          (seg_offsets st)).
  { intros x. apply map_ext_in. intros o I. rewrite Forall_forall in F.
    apply F in I. f_equal. apply slice_of_prefix; lia. }
  pose proof (len_nonneg p) as Hp.
  unfold segment_step, is_splitter at 1.
  destruct (char_in c SPLITTER_CHAR) eqn:S; cbn [seg_offsets seg_start_idx].
  - rewrite map_app, concat_app, Old. cbn [map concat fst snd].
    rewrite app_nil_r, <- Lb, slice_of_prefix, slice_to_end by lia.
    rewrite (@skipn_all2 _ (Z.to_nat (len b + 1)))
      by (rewrite length_app; unfold len in *; simpl; lia).
    rewrite app_nil_r, !app_assoc. f_equal. exact IH.
  - rewrite Old, skipn_app.
    replace (Z.to_nat (seg_start_idx st) - List.length b)%nat with 0%nat
      by (unfold len in *; lia).
    cbn [skipn]. rewrite app_assoc. f_equal; [exact IH|].
    unfold is_splitter. now rewrite S.
Qed.

(** Joining the slot texts with single spaces gives back the normalised
    string of [process_ingredients], up to the space of a final separator:
    the slots and the blanked separators partition the text. *)
Theorem slots_partition_the_text (t : str) :
  normalized (process_ingredients t)
  = join [SPACE] (iter_normalized_ingredients (process_ingredients t))
      ++ (if ends_with_splitter (normalize_ingredients t) then [SPACE] else []).
Proof.
  unfold iter_normalized_ingredients.
  rewrite (map_ext _ (fun o => slice (normalized (process_ingredients t))
                                     (Some (fst o)) (Some (snd o))))
    by (now intros [a b]).
  rewrite process_ingredients_normalized.
  unfold process_ingredients, enumerate. cbn [offsets].
  set (n := normalize_ingredients t).
  pose proof (segment_pieces n) as P. cbv zeta in P.
  pose proof (segment_start_idx n 0 (mkSeg [] [] 0)) as E.
  cbn [seg_start_idx] in E. rewrite Z.add_0_l in E. specialize (E ltac:(lia)).
  destruct (segment_loop_inv n 0 (mkSeg [] [] 0)) as (C & L & _).
  { split; [constructor | split; [simpl; lia | reflexivity]]. }
  rewrite Z.add_0_l in L.
  set (st := fold_left segment_step (enumerate_from 0 n) (mkSeg [] [] 0)) in *.
  set (b := map (fun c => if is_splitter c then SPACE else c) n) in *.
  assert (Lb : len b = len n) by (unfold b, len; now rewrite length_map).
  destruct n as [|c0 n0] eqn:En; [reflexivity|]. rewrite <- En in *.
  assert (Pos : 0 < len n) by (rewrite En, len_cons; pose proof (len_nonneg n0); lia).
  replace (match n with [] => seg_start_idx st =? 0 | _ => ends_with_splitter n end)
    with (ends_with_splitter n) in E by now rewrite En.
  rewrite <- E. destruct (seg_start_idx st =? len n) eqn:Q.
  - apply Z.eqb_eq in Q. rewrite P at 1.
    rewrite skipn_all2 by (unfold len in *; lia). rewrite app_nil_r.
    rewrite <- (map_map (fun o => slice b (Some (fst o)) (Some (snd o)))
                        (fun p => p ++ [SPACE])).
    apply join_closed. intros N. apply map_eq_nil in N.
    rewrite N in C. inversion C. lia.
  - apply Z.eqb_neq in Q. rewrite map_app. cbn [map fst snd].
    rewrite join_snoc, app_nil_r, map_map.
    rewrite <- Lb, slice_to_end by (pose proof (chain_le _ _ _ C); lia).
    exact P.
Qed.

(** ** More on the reconciler *)

Section ReconcilerFurther.
Context `{StrMethods}.

Lemma agreeing_pairs o : forall s,
  List.length o = List.length s ->
  filter (fun p => negb (str_eqb (lower (token (fst p))) (token (snd p))))
         (combine o s) = [] ->
  tokens_agree o s.
Proof.
  induction o as [|a o IH]; intros [|b s] L F; simpl in *; try discriminate.
  - constructor.
  - destruct (str_eqb (lower (token a)) (token b)) eqn:E; simpl in F;
      [|discriminate].
    constructor; [now apply str_eqb_eq | apply IH; [lia | exact F]].
Qed.

(** [format_corrections] returns the empty list exactly when the two token
    lists have the same length and every original token, lower-cased, equals
    the suggestion token at its index. *)
Theorem no_correction_iff_tokens_agree
        (original_tokens suggestion_tokens : list Token) (offset : Z) :
  format_corrections original_tokens suggestion_tokens offset = inr []
  <-> tokens_agree original_tokens suggestion_tokens.
Proof.
  split; [|apply format_corrections_agree].
  unfold format_corrections.
  destruct (List.length original_tokens =? List.length suggestion_tokens)%nat
    eqn:L; simpl; [|discriminate].
  apply Nat.eqb_eq in L. rewrite format_loop. simpl. intros E.
  inversion E as [E']. apply map_eq_nil in E'. now apply agreeing_pairs.
Qed.

(** The base offset only translates the result: the corrections for a slot
    starting at [offset] are those for offset 0 with [offset] added to both
    ends; a mismatch is raised whatever the offset. *)
Theorem format_corrections_translates
        (original_tokens suggestion_tokens : list Token) (offset : Z) :
  format_corrections original_tokens suggestion_tokens offset
  = match format_corrections original_tokens suggestion_tokens 0 with
    | inr term_corrections => inr (map (shift offset) term_corrections)
    | inl e => inl e
    end.
Proof.
  unfold format_corrections. destruct (negb _); trivial.
  rewrite !format_loop. simpl. rewrite map_map. f_equal.
Qed.

End ReconcilerFurther.

(** ** More on [_suggest_batch] *)

Lemma bind_ret {A B} (x : A) (f : A -> M B) : bind (ret x) f = f x.
Proof. unfold bind, ret. now destruct (f x). Qed.

Lemma getitem_first {A} (l : list A) log x :
  getitem l 0 = (log, inr x) -> hd_error l = Some x /\ log = [].
Proof.
  unfold getitem. simpl. destruct l as [|y l]; simpl; intros E;
    inversion E; now subst.
Qed.

Lemma suggest_step_outcome response acc r log st :
  suggest_step response acc r = (log, inr st) ->
  (succeeded r = true /\ log = [] /\
   exists s, hd_error (suggest r) = Some s /\ st = acc ++ [s]) \/
  (succeeded r = false /\ st = acc /\ List.length log = 1%nat).
Proof.
  unfold suggest_step, succeeded. destruct (status r =? 200); simpl.
  - intros E. left. apply bind_inr in E as (l1 & s & l2 & G & E & ->).
    apply getitem_first in G as [G ->]. inversion E; subst.
    split; trivial. split; trivial. now exists s.
  - intros E. right. apply bind_inr in E as (l1 & causes & l2 & C & E & ->).
    apply bind_inr in E as (l3 & rc & l4 & G & E & ->).
    apply getitem_first in G as [_ ->].
    destruct (error response); inversion C; subst.
    inversion E; subst. now split.
Qed.

Lemma suggest_loop_outcome response rs : forall acc log res,
  for_each rs acc (suggest_step response) = (log, inr res) ->
  exists added,
    res = acc ++ added /\
    Forall2 (fun r s => hd_error (suggest r) = Some s)
            (filter succeeded rs) added /\
    List.length log
    = List.length (filter (fun r => negb (succeeded r)) rs).
Proof.
  induction rs as [|r rs IH]; intros acc log res; cbn [for_each filter].
  - intros E. inversion E; subst. exists []. rewrite app_nil_r.
    repeat split. constructor.
  - intros E. apply bind_inr in E as (l1 & st & l2 & E1 & E2 & ->).
    apply IH in E2 as (added & -> & F & L).
    apply suggest_step_outcome in E1
      as [(S & -> & s & Hs & ->) | (S & -> & L1)]; rewrite S; simpl.
    + exists (s :: added). rewrite <- app_assoc. repeat split; trivial.
      now constructor.
    + exists added. repeat split; trivial. rewrite length_app. simpl. lia.
Qed.

(** When [_suggest_batch] returns, its result holds the first suggestion of
    every response of status 200, in order, and nothing for the others: one
    line was printed for each of those.  So the suggestions returned and
    the lines printed add up to the number of responses. *)
Theorem suggest_batch_keeps_successes
        (client : Client) (texts : list str) (kw : Kwargs)
        (log : list event) (suggestions : list Suggestion) :
  _suggest_batch client texts kw = (log, inr suggestions) ->
  let rs :=
    responses (msearch client
                 (map (fun text => generate_suggest_query text kw) texts)) in
  Forall2 (fun r s => hd_error (suggest r) = Some s)
          (filter succeeded rs) suggestions /\
  List.length suggestions = List.length (filter succeeded rs) /\
  List.length log = List.length (filter (fun r => negb (succeeded r)) rs) /\
  (List.length suggestions + List.length log = List.length rs)%nat.
Proof.
  unfold _suggest_batch. intros E.
  apply suggest_loop_outcome in E as (added & -> & F & L).
  cbv zeta. simpl app. pose proof (Forall2_length F) as LF.
  repeat split; trivial; [now symmetry|].
  rewrite L, <- LF. apply filter_length.
Qed.

Lemma suggest_batch_keeps_successes_witness :
  let client := toy_client respellings [py "sell"] true in
  let texts := [py "sucrre"; py "sell"; py "beure"] in
  _suggest_batch client texts default_kwargs
  = ([Printed (py "bad query") (py "parsing_exception")],
     inr [mkSuggestion [mkSuggestOption (py "sucre") 1];
          mkSuggestion [mkSuggestOption (py "beurre") 1]]) /\
  List.length [mkSuggestion [mkSuggestOption (py "sucre") 1];
               mkSuggestion [mkSuggestOption (py "beurre") 1]] = 2%nat.
Proof.
  split; [reflexivity|].
  exact (proj1 (proj2 (suggest_batch_keeps_successes
                         (toy_client respellings [py "sell"] true)
                         [py "sucrre"; py "sell"; py "beure"] default_kwargs
                         [Printed (py "bad query") (py "parsing_exception")]
                         [mkSuggestion [mkSuggestOption (py "sucre") 1];
                          mkSuggestion [mkSuggestOption (py "beurre") 1]]
                         eq_refl))).
Defined.

Lemma suggest_loop_usable response good : forall more acc,
  Forall usable good ->
  for_each (good ++ more) acc (suggest_step response)
  = for_each more
             (acc ++ flat_map (fun r => firstn 1 (suggest r)) good)
             (suggest_step response).
Proof.
  induction good as [|r good IH]; intros more acc F; simpl app.
  - now rewrite app_nil_r.
  - inversion F as [|? ? [S N] F']; subst. cbn [for_each flat_map].
    unfold suggest_step at 1. rewrite S. simpl negb. cbv iota.
    destruct (suggest r) as [|s l] eqn:E; [now elim N|].
    change (getitem (s :: l) 0) with (@ret Suggestion s).
    rewrite !bind_ret, IH by trivial. rewrite <- app_assoc. reflexivity.
Qed.

(** The first response that cannot be read decides how [_suggest_batch]
    ends: a failed response raises [KeyError] when the answer has no
    top-level [error] key, and a response of status 200 with an empty list
    of suggestions raises [IndexError]; nothing is printed before. *)
Theorem suggest_batch_raises
        (client : Client) (texts : list str) (kw : Kwargs)
        (good rest : list ResponseItem) (bad : ResponseItem) :
  let response :=
    msearch client (map (fun text => generate_suggest_query text kw) texts) in
  responses response = good ++ bad :: rest ->
  Forall usable good ->
  (status bad <> 200 -> error response = None ->
   _suggest_batch client texts kw = ([], inl (KeyError "error"))) /\
  (status bad = 200 -> suggest bad = [] ->
   _suggest_batch client texts kw = ([], inl IndexError)).
Proof.
  intros response R F. unfold _suggest_batch. fold response. rewrite R.
  rewrite suggest_loop_usable by trivial. cbn [for_each app].
  unfold suggest_step at 1 3. split.
  - intros S E. apply Z.eqb_neq in S. rewrite S, E. reflexivity.
  - intros S E. rewrite S, E. reflexivity.
Qed.

Lemma suggest_batch_raises_witness :
  _suggest_batch (toy_client respellings [py "sell"] false)
                 [py "sucrre"; py "sell"; py "beure"] default_kwargs
  = ([], inl (KeyError "error")).
Proof.
  refine (proj1 (suggest_batch_raises
                   (toy_client respellings [py "sell"] false)
                   [py "sucrre"; py "sell"; py "beure"] default_kwargs
                   [mkResponseItem 200
                      [mkSuggestion [mkSuggestOption (py "sucre") 1]]]
                   [mkResponseItem 200
                      [mkSuggestion [mkSuggestOption (py "beurre") 1]]]
                   (mkResponseItem 500 []) _ _) _ _).
  - vm_compute. reflexivity.
  - repeat constructor. discriminate.
  - discriminate.
  - reflexivity.
Defined.

(** ** More on [generate_corrections] *)

Lemma getitem_In {A} (l : list A) i log x :
  getitem l i = (log, inr x) -> In x l.
Proof.
  unfold getitem. destruct (_ <? 0); [discriminate|].
  destruct (nth_error l _) eqn:N; [|discriminate].
  intros E. inversion E; subst. eapply nth_error_In, N.
Qed.

Lemma one_token_in_bounds msearch_ : analyzer_in_bounds (mkClient msearch_ one_token).
Proof.
  intros s. unfold one_token. simpl. constructor; [|constructor].
  simpl. pose proof (len_nonneg s). lia.
Qed.

Lemma first_suggestions_length (rs : list ResponseItem) :
  (List.length (flat_map (fun r => firstn 1 (suggest r)) rs)
   <= List.length rs)%nat.
Proof.
  induction rs as [|r rs IH]; cbn [flat_map]; trivial.
  rewrite length_app, length_firstn. cbn [List.length].
  pose proof (Nat.le_min_l 1 (List.length (suggest r))). lia.
Qed.

Section PipelineFurther.
Context `{StrMethods}.

(** What one iteration can add: nothing, or one [Correction] built from
    the tokens of the slot at [idx]. *)
Lemma correction_step_outcome client ing corrections idx sugg log st :
  correction_step client ing corrections (idx, sugg) = (log, inr st) ->
  st = corrections \/
  exists slot top tcs,
    In slot (offsets ing) /\
    format_corrections
      (analyze client
         (slice (normalized ing) (Some (fst slot)) (Some (snd slot))))
      (analyze client (option_text top)) (fst slot) = inr tcs /\
    st = corrections ++ [mkCorrection tcs (option_score top)].
Proof.
  unfold correction_step, get_normalized_ingredient. intros E.
  apply bind_inr in E as (l1 & slot & l2 & G & E & _).
  pose proof (getitem_In _ _ _ _ G) as I.
  assert (G' : getitem (offsets ing) idx = ret slot).
  { revert G. unfold getitem. destruct (_ <? 0); [discriminate|].
    destruct (nth_error _ _); [|discriminate]. intros G. now inversion G. }
  rewrite G', !bind_ret in E.
  destruct (options sugg) as [|top rest].
  - left. now inversion E.
  - destruct (format_corrections _ _ _) as [[]|tcs] eqn:F; inversion E; subst.
    + now left.
    + right. now exists slot, top, tcs.
Qed.

Lemma correction_loop_invariant client ing (P : Correction -> Prop) :
  (forall slot top tcs,
     In slot (offsets ing) ->
     format_corrections
       (analyze client
          (slice (normalized ing) (Some (fst slot)) (Some (snd slot))))
       (analyze client (option_text top)) (fst slot) = inr tcs ->
     P (mkCorrection tcs (option_score top))) ->
  forall items corrections log res,
    for_each items corrections (correction_step client ing) = (log, inr res) ->
    Forall P corrections -> Forall P res.
Proof.
  intros Hstep items. induction items as [|[idx sugg] items IH];
    intros corrections log res; cbn [for_each].
  - intros E. now inversion E.
  - intros E F. apply bind_inr in E as (l1 & st & l2 & E1 & E2 & _).
    apply (IH _ _ _ E2).
    apply correction_step_outcome in E1
      as [-> | (slot & top & tcs & I & Fc & ->)]; trivial.
    apply Forall_app. split; trivial. constructor; [|constructor].
    eapply Hstep; eassumption.
Qed.

(** With an analyzer that reports token offsets inside the string it was
    given, every term correction returned by [generate_corrections] lies
    inside one slot of the text, hence inside the text: for some slot
    [(a, b)], [a <= start_offset <= end_offset <= b <= len(text)]. *)
Theorem corrections_stay_inside_slots
        (client : Client) (ingredients_text : str) (kw : Kwargs)
        (log : list event) (res : list Correction) :
  analyzer_in_bounds client ->
  generate_corrections client ingredients_text kw = (log, inr res) ->
  Forall (fun c =>
            exists slot,
              In slot (offsets (process_ingredients ingredients_text)) /\
              0 <= fst slot /\ snd slot <= len ingredients_text /\
              Forall (inside slot) (term_corrections c))
         res.
Proof.
  intros A G. unfold generate_corrections in G.
  apply bind_inr in G as (l1 & suggs & l2 & _ & G & _).
  eapply correction_loop_invariant; [|exact G|constructor].
  intros slot top tcs I F. exists slot.
  destruct (slot_in_text _ _ I) as (B1 & B2 & B3).
  destruct (process_ingredients_chain ingredients_text) as (Ln & _).
  cbv zeta in Ln. repeat split; trivial. cbn [term_corrections].
  revert F. unfold format_corrections. destruct (negb _); [discriminate|].
  intros F. inversion F as [F']. clear F F'. rewrite format_loop.
  apply Forall_forall. intros tc T. simpl in T.
  apply in_map_iff in T as ([o s] & <- & T). apply filter_In in T as [T _].
  apply in_combine_l in T. specialize (A (slice (normalized
    (process_ingredients ingredients_text)) (Some (fst slot)) (Some (snd slot)))).
  rewrite Forall_forall in A. apply A in T.
  rewrite len_slice_mid in T by lia.
  unfold inside. simpl. lia.
Qed.

Lemma correction_loop_runs client ing suggs : forall (k : nat) corrections,
  (k + List.length suggs <= List.length (offsets ing))%nat ->
  exists log res,
    for_each (enumerate_from (Z.of_nat k) suggs) corrections
             (correction_step client ing) = (log, inr res) /\
    (List.length res <= List.length corrections + List.length suggs)%nat.
Proof.
  induction suggs as [|[opts] suggs IH]; intros k corrections L;
    cbn [enumerate_from for_each].
  - exists [], corrections. split; [reflexivity | simpl; lia].
  - simpl in L.
    destruct (nth_error (offsets ing) k) as [off|] eqn:N;
      [|apply nth_error_None in N; lia].
    assert (S1 : exists l st,
      correction_step client ing corrections (Z.of_nat k, mkSuggestion opts)
        = (l, inr st) /\
      (List.length st <= List.length corrections + 1)%nat).
    { destruct opts as [|top rest].
      - unfold correction_step, get_normalized_ingredient.
        rewrite (getitem_nth _ _ _ N), !bind_ret. cbn [options].
        exists [], corrections. split; [reflexivity | lia].
      - rewrite (correction_step_option _ _ _ _ _ _ _ N). cbv zeta.
        destruct (format_corrections _ _ _); eexists _, _;
          (split; [reflexivity|]); rewrite ?length_app; simpl; lia. }
    destruct S1 as (l & st & E & Ls). rewrite E.
    replace (Z.of_nat k + 1) with (Z.of_nat (S k)) by lia.
    destruct (IH (S k) st) as (log & res & E' & Lr); [lia|].
    unfold bind. rewrite E'. exists (l ++ log), res. split; [reflexivity|].
    simpl. lia.
Qed.

(** When the backend answers every slot with a response of status 200 that
    holds at least one suggestion entry, [generate_corrections] raises
    nothing and returns at most one [Correction] per slot. *)
Theorem generate_corrections_returns
        (client : Client) (ingredients_text : str) (kw : Kwargs) :
  let ingredients := process_ingredients ingredients_text in
  let rs :=
    responses
      (msearch client
         (map (fun text => generate_suggest_query text kw)
              (iter_normalized_ingredients ingredients))) in
  Forall usable rs ->
  List.length rs = List.length (offsets ingredients) ->
  exists log res,
    generate_corrections client ingredients_text kw = (log, inr res) /\
    (List.length res <= List.length (offsets ingredients))%nat.
Proof.
  intros ingredients rs U L. unfold generate_corrections, _suggest_batch.
  fold ingredients. fold rs.
  rewrite <- (app_nil_r rs), suggest_loop_usable by trivial.
  cbn [for_each app]. rewrite bind_ret. unfold enumerate.
  destruct (correction_loop_runs client ingredients
              (flat_map (fun r => firstn 1 (suggest r)) rs) 0 [])
    as (log & res & E & Lr).
  { pose proof (first_suggestions_length rs). lia. }
  exists log, res. split; [exact E|].
  pose proof (first_suggestions_length rs). cbn [List.length Nat.add] in Lr.
  lia.
Qed.

End PipelineFurther.

Lemma corrections_stay_inside_slots_witness :
  let client := mkClient (msearch (toy_client [(py "Sell", py "sel")] [] false)) one_token in
  generate_corrections client (py "eau,Sell") default_kwargs
  = ret [mkCorrection [mkTermCorrection (py "Sell") (py "Sel") 4 8] 1] /\
  Forall (fun c =>
            exists slot,
              In slot (offsets (process_ingredients (py "eau,Sell"))) /\
              0 <= fst slot /\ snd slot <= len (py "eau,Sell") /\
              Forall (inside slot) (term_corrections c))
         [mkCorrection [mkTermCorrection (py "Sell") (py "Sel") 4 8] 1].
Proof.
  split; [reflexivity|].
  refine (corrections_stay_inside_slots
            (mkClient (msearch (toy_client [(py "Sell", py "sel")] [] false)) one_token)
            (py "eau,Sell") default_kwargs []
            [mkCorrection [mkTermCorrection (py "Sell") (py "Sel") 4 8] 1]
            _ _).
  - apply one_token_in_bounds.
  - reflexivity.
Defined.

Lemma generate_corrections_returns_witness :
  exists log res,
    generate_corrections (toy_client respellings [] false) five_slots
                         default_kwargs = (log, inr res) /\
    (List.length res
     <= List.length (offsets (process_ingredients five_slots)))%nat.
Proof.
  refine (generate_corrections_returns
            (toy_client respellings [] false) five_slots default_kwargs _ _).
  - vm_compute. repeat constructor; discriminate.
  - reflexivity.
Defined.

(** ** More on the text rebuilder *)

Lemma slice_none_zero {A} (t : list A) hi : slice t None hi = slice t (Some 0) hi.
Proof.
  unfold slice, clamp. simpl. rewrite Z.min_l by apply len_nonneg. reflexivity.
Qed.

Lemma slice_then_rest {A} (t : list A) (a b : Z) :
  0 <= a -> a <= b -> b <= len t ->
  slice t (Some a) (Some b) ++ skipn (Z.to_nat b) t = skipn (Z.to_nat a) t.
Proof.
  intros Ha Hab Hb. rewrite slice_mid by trivial.
  replace (Z.to_nat b) with (Z.to_nat (b - a) + Z.to_nat a)%nat by lia.
  rewrite <- skipn_skipn. apply firstn_skipn.
Qed.

Lemma placed_le lo cs : forall hi, placed lo cs hi -> lo <= hi.
Proof.
  revert lo. induction cs as [|c cs IH]; intros lo hi; simpl; trivial.
  intros (L1 & L2 & P). apply IH in P. lia.
Qed.

Lemma placed_is_sorted cs : forall lo hi,
  placed lo cs hi -> sorted_by_start cs = cs.
Proof.
  induction cs as [|c cs IH]; intros lo hi P; trivial.
  destruct P as (L1 & L2 & P). simpl. rewrite (IH _ _ P).
  destruct cs as [|d cs]; trivial. destruct P as (L3 & _).
  simpl. destruct (start_offset c <=? start_offset d) eqn:E; trivial.
  apply Z.leb_gt in E. lia.
Qed.

Lemma rebuild_loop t cs : forall frags l,
  (let '(fragments, last_correction) :=
     fold_left (rebuild_step t) cs (frags, Some l) in
   concat (match last_correction with
           | Some l' => fragments ++ [slice t (Some (end_offset l')) None]
           | None => fragments
           end))
  = concat frags ++ spliced_from t (end_offset l) cs.
Proof.
  induction cs as [|c cs IH]; intros frags l; cbn [fold_left spliced_from].
  - rewrite concat_app. simpl. now rewrite app_nil_r.
  - unfold rebuild_step at 2. rewrite IH, !concat_app. simpl.
    now rewrite app_nil_r, <- !app_assoc.
Qed.

(** The layout of the rebuilt text for corrections already in text order. *)
Lemma rebuild_layout t c cs :
  sorted_by_start (c :: cs) = c :: cs ->
  generate_corrected_text (c :: cs) t = spliced_from t 0 (c :: cs).
Proof.
  intros S. unfold generate_corrected_text. rewrite S.
  cbn [fold_left]. unfold rebuild_step at 2.
  pose proof (rebuild_loop t cs ([] ++ [slice t None (Some (start_offset c))]
                                    ++ [correction c]) c) as R.
  destruct (fold_left _ cs _) as [fragments last_correction].
  cbv beta iota zeta in R |- *. etransitivity; [exact R|].
  cbn [spliced_from app concat].
  now rewrite app_nil_r, slice_none_zero, <- app_assoc.
Qed.

Lemma spliced_length t cs : forall lo,
  0 <= lo -> placed lo cs (len t) ->
  len (spliced_from t lo cs) = len t - lo + growth cs.
Proof.
  induction cs as [|c cs IH]; intros lo L P; cbn [spliced_from growth].
  - simpl in P. rewrite slice_from by trivial. unfold len in *.
    rewrite length_skipn. lia.
  - destruct P as (L1 & L2 & P). pose proof (placed_le _ _ _ P) as L3.
    rewrite !len_app, IH, len_slice_mid by (trivial; lia). lia.
Qed.

Lemma spliced_same_text t cs : forall lo,
  0 <= lo -> placed lo cs (len t) ->
  Forall (fun c => correction c
                   = slice t (Some (start_offset c)) (Some (end_offset c))) cs ->
  spliced_from t lo cs = skipn (Z.to_nat lo) t.
Proof.
  induction cs as [|c cs IH]; intros lo L P F; cbn [spliced_from].
  - now apply slice_from.
  - destruct P as (L1 & L2 & P). pose proof (placed_le _ _ _ P) as L3.
    inversion F as [|? ? E F']; subst. rewrite E, IH by (trivial; lia).
    rewrite slice_then_rest by lia. apply slice_then_rest; lia.
Qed.

(** For at least one correction, given in text order with spans that lie in
    the text and do not overlap, the rebuilt text has the length of the
    text plus, for each correction, the length of its replacement minus the
    length of its span. *)
Theorem rebuilt_text_length (t : str) (c : TermCorrection)
        (cs : list TermCorrection) :
  placed 0 (c :: cs) (len t) ->
  len (generate_corrected_text (c :: cs) t) = len t + growth (c :: cs).
Proof.
  intros P. rewrite rebuild_layout by (eapply placed_is_sorted, P).
  rewrite spliced_length by (trivial; lia). lia.
Qed.

Lemma rebuilt_text_length_witness :
  generate_corrected_text
    [mkTermCorrection (py "sucrre") (py "sucre") 0 6;
     mkTermCorrection (py "beure") (py "beurre") 8 13]
    (py "sucrre, beure, eau")
  = py "sucre, beurre, eau" /\
  len (generate_corrected_text
         [mkTermCorrection (py "sucrre") (py "sucre") 0 6;
          mkTermCorrection (py "beure") (py "beurre") 8 13]
         (py "sucrre, beure, eau"))
  = len (py "sucrre, beure, eau")
    + growth [mkTermCorrection (py "sucrre") (py "sucre") 0 6;
              mkTermCorrection (py "beure") (py "beurre") 8 13].
Proof.
  split; [reflexivity|].
  refine (rebuilt_text_length (py "sucrre, beure, eau")
            (mkTermCorrection (py "sucrre") (py "sucre") 0 6)
            [mkTermCorrection (py "beure") (py "beurre") 8 13] _).
  vm_compute. repeat split; discriminate.
Defined.

(** Round trip: at least one correction, in text order with spans in the
    text that do not overlap, each replacing its span by the text it already
    holds, rebuilds the text itself. *)
Theorem rebuilding_with_the_same_text (t : str) (c : TermCorrection)
        (cs : list TermCorrection) :
  placed 0 (c :: cs) (len t) ->
  Forall (fun c => correction c
                   = slice t (Some (start_offset c)) (Some (end_offset c)))
         (c :: cs) ->
  generate_corrected_text (c :: cs) t = t.
Proof.
  intros P F. rewrite rebuild_layout by (eapply placed_is_sorted, P).
  now rewrite spliced_same_text by (trivial; lia).
Qed.

Lemma rebuilding_with_the_same_text_witness :
  generate_corrected_text
    [mkTermCorrection (py "sel") (py "sel") 0 3;
     mkTermCorrection (py "eau") (py "eau") 5 8]
    (py "sel, eau")
  = py "sel, eau".
Proof.
  refine (rebuilding_with_the_same_text (py "sel, eau")
            (mkTermCorrection (py "sel") (py "sel") 0 3)
            [mkTermCorrection (py "eau") (py "eau") 5 8] _ _).
  - vm_compute. repeat split; discriminate.
  - repeat constructor.
Defined.

Lemma insert_by_start_commutes a b : forall l,
  start_offset a <> start_offset b ->
  insert_by_start a (insert_by_start b l)
  = insert_by_start b (insert_by_start a l).
Proof.
  intros l N. induction l as [|d l IH]; simpl;
    repeat (match goal with
            | |- context [Z.leb ?x ?y] => destruct (Z.leb_spec x y); simpl
            end);
    try reflexivity; try lia; now rewrite IH.
Qed.

Lemma sorted_by_start_permutation cs cs' :
  Permutation cs cs' ->
  NoDup (map start_offset cs) ->
  sorted_by_start cs = sorted_by_start cs'.
Proof.
  induction 1 as [|x l l' P IH|x y l|l l' l'' P1 IH1 P2 IH2]; intros N; simpl.
  - reflexivity.
  - inversion N; subst. now rewrite IH.
  - inversion N as [|? ? Nx N']; subst. apply insert_by_start_commutes.
    intros E. apply Nx. simpl. now left.
  - rewrite IH1 by trivial. apply IH2.
    eapply Permutation_NoDup; [|exact N]. now apply Permutation_map.
Qed.

(** The order in which the corrections are passed does not matter when no
    two of them start at the same offset. *)
Theorem rebuilt_text_ignores_input_order (t : str)
        (cs cs' : list TermCorrection) :
  Permutation cs cs' ->
  NoDup (map start_offset cs) ->
  generate_corrected_text cs t = generate_corrected_text cs' t.
Proof.
  intros P N. unfold generate_corrected_text.
  now rewrite (sorted_by_start_permutation _ _ P N).
Qed.

Lemma rebuilt_text_ignores_input_order_witness :
  generate_corrected_text
    [mkTermCorrection (py "beure") (py "beurre") 8 13;
     mkTermCorrection (py "sucrre") (py "sucre") 0 6]
    (py "sucrre, beure, eau")
  = generate_corrected_text
      [mkTermCorrection (py "sucrre") (py "sucre") 0 6;
       mkTermCorrection (py "beure") (py "beurre") 8 13]
      (py "sucrre, beure, eau").
Proof.
  refine (rebuilt_text_ignores_input_order (py "sucrre, beure, eau") _ _ _ _).
  - apply perm_swap.
  - repeat constructor; simpl; intuition discriminate.
Defined.

(** ** Slots without suggestion *)

Lemma without_option_usable rs : Forall without_option rs -> Forall usable rs.
Proof.
  apply Forall_impl. intros r (S & s & l & E & _). split; trivial.
  rewrite E. discriminate.
Qed.

Lemma first_suggestions_without_option rs :
  Forall without_option rs ->
  Forall (fun s => options s = [])
         (flat_map (fun r => firstn 1 (suggest r)) rs).
Proof.
  induction 1 as [|r rs (S & s & l & E & O) F IH]; cbn [flat_map].
  - constructor.
  - rewrite E. simpl. now constructor.
Qed.

Section NoSuggestion.
Context `{StrMethods}.

Lemma correction_loop_without_option client ing suggs : forall (k : nat) acc,
  Forall (fun s => options s = []) suggs ->
  (k + List.length suggs <= List.length (offsets ing))%nat ->
  for_each (enumerate_from (Z.of_nat k) suggs) acc (correction_step client ing)
  = ret acc.
Proof.
  induction suggs as [|s suggs IH]; intros k acc F L;
    cbn [enumerate_from for_each]; trivial.
  inversion F as [|? ? O F']; subst. simpl in L.
  destruct (nth_error (offsets ing) k) as [off|] eqn:N;
    [|apply nth_error_None in N; lia].
  unfold correction_step at 1, get_normalized_ingredient.
  rewrite (getitem_nth _ _ _ N), !bind_ret, O, bind_ret.
  replace (Z.of_nat k + 1) with (Z.of_nat (S k)) by lia.
  apply IH; trivial. lia.
Qed.

(** When every response has status 200 and its first suggestion entry has
    no option, [generate_corrections] returns the empty list without
    logging, and the product gets no insight. *)
Theorem no_option_no_insight
        (client : Client) (ingredients_text : str) (kw : Kwargs) :
  let ingredients := process_ingredients ingredients_text in
  let rs :=
    responses
      (msearch client
         (map (fun text => generate_suggest_query text kw)
              (iter_normalized_ingredients ingredients))) in
  Forall without_option rs ->
  (List.length rs <= List.length (offsets ingredients))%nat ->
  generate_corrections client ingredients_text kw = ret [] /\
  product_insight client ingredients_text kw = ret None.
Proof.
  intros ingredients rs W L.
  assert (G : generate_corrections client ingredients_text kw = ret []).
  { unfold generate_corrections, _suggest_batch. fold ingredients. fold rs.
    rewrite <- (app_nil_r rs), suggest_loop_usable
      by now apply without_option_usable.
    cbn [for_each app]. rewrite bind_ret. unfold enumerate.
    apply (correction_loop_without_option client ingredients _ 0).
    - now apply first_suggestions_without_option.
    - pose proof (first_suggestions_length rs). lia. }
  split; trivial. unfold product_insight. now rewrite G, bind_ret.
Qed.

End NoSuggestion.

Lemma no_option_no_insight_witness :
  generate_corrections (toy_client respellings [] false) (py "sel, eau")
                       default_kwargs = ret [] /\
  product_insight (toy_client respellings [] false) (py "sel, eau")
                  default_kwargs = ret None.
Proof.
  refine (no_option_no_insight (toy_client respellings [] false)
            (py "sel, eau") default_kwargs _ _).
  - vm_compute. repeat constructor; repeat eexists.
  - vm_compute. lia.
Defined.
